(** * The AI Gateway access proxy worker ([src/index.ts])

    A shallow embedding of the worker's single route handler together with
    the platform functions it calls, and the properties of the handler that
    the specification states.

    Layout:
    - [Js]       : the JavaScript values and built-ins the handler relies
                   on ([String.prototype.split], [atob], [JSON.parse],
                   [JSON.stringify], truthiness);
    - [Http]     : headers, requests, responses and the network;
    - [Worker]   : the handler of [app.post("*", ...)], step by step, with
                   the effects of a run;
    - [Spec]     : the notions that exist only in the specification
                   (signature verification against a key set, the key-set
                   endpoint, the causes of failure), written from its
                   words, and the sentences that the handler does
                   not satisfy, as they are written;
    - [Scenario] : a deployment and requests on which the handler is run;
    - [Tokens], [CodeUnits] : two more tokens, and the invariant of the
                   strings that the decoding yields;
    - [Listing]  : the key-set variant of the worker that [README.md]
                   lists ([withRetry], [getPublicKeys] and its handler),
                   with the state of its module and the effects of a run;
    - the properties: the parser's fuel, the decoding step, the handler
      case by case, one theorem for each statement of the
      specification, further properties of the handler, and the
      properties of the listed variant. *)

From Stdlib Require Import ZArith NArith List String Ascii Bool Lia.
From Stdlib Require Import DecimalString.
From stdpp Require Import base option gmap strings list.

Open Scope N_scope.

(** A JavaScript string is a sequence of UTF-16 code units. *)
Abbreviation jsstring := (list N).

(** The code units of an ASCII literal. *)
Definition js (s : string) : jsstring :=
  map N_of_ascii (list_ascii_of_string s).

Module Js.

(** The text after the character [c], when the text starts with it. *)
Definition starts_with (c : N) (s : jsstring) : option jsstring :=
  match s with
  | c' :: r => if c' =? c then Some r else None
  | [] => None
  end.

(** ** [String.prototype.split] with a one-character separator *)

(** [s.split(sep)]: the pieces of [s] between occurrences of [sep]; the
    result is never empty (splitting the empty string gives one empty
    piece). *)
Fixpoint split (sep : N) (s : jsstring) : list jsstring :=
  match s with
  | [] => [[]]
  | c :: s' =>
      if c =? sep then [] :: split sep s'
      else match split sep s' with
           | [] => [[c]]
           | p :: ps => (c :: p) :: ps
           end
  end.

(** [parts.join(sep)], the inverse used to assemble tokens from segments. *)
Fixpoint join (sep : N) (parts : list jsstring) : jsstring :=
  match parts with
  | [] => []
  | [p] => p
  | p :: ps => p ++ sep :: join sep ps
  end.

(** ** [atob]: the forgiving base64 decoder of the HTML standard *)

Definition is_ascii_whitespace (c : N) : bool :=
  (c =? 9) || (c =? 10) || (c =? 12) || (c =? 13) || (c =? 32).

(** The value of a character of the base64 alphabet [A-Za-z0-9+/]. *)
Definition base64_value (c : N) : option N :=
  if (65 <=? c) && (c <=? 90) then Some (c - 65)
  else if (97 <=? c) && (c <=? 122) then Some (c - 71)
  else if (48 <=? c) && (c <=? 57) then Some (c + 4)
  else if c =? 43 then Some 62
  else if c =? 47 then Some 63
  else None.

(** When the length is a multiple of four, one or two trailing [=] go. *)
Definition strip_padding (s : jsstring) : jsstring :=
  if N.of_nat (length s) mod 4 =? 0 then
    match starts_with 61 (rev s) with
    | Some r =>
        match starts_with 61 r with
        | Some r' => rev r'
        | None => rev r
        end
    | None => s
    end
  else s.

(** Four sextets give three bytes; a tail of two gives one byte and a tail
    of three gives two, the left-over bits being dropped. *)
Fixpoint decode_sextets (l : list N) : list N :=
  match l with
  | a :: b :: c :: d :: rest =>
      let n := a * 262144 + b * 4096 + c * 64 + d in
      (n / 65536) :: ((n / 256) mod 256) :: (n mod 256) :: decode_sextets rest
  | [a; b; c] => let n := a * 4096 + b * 64 + c in [n / 1024; (n / 4) mod 256]
  | [a; b] => [(a * 64 + b) / 16]
  | _ => []
  end.

(** [atob(data)]: [None] stands for the [InvalidCharacterError] it throws.
    The result is a "binary string": every code unit is below 256. *)
Definition atob (data : jsstring) : option jsstring :=
  let d := strip_padding (filter (fun c => is_ascii_whitespace c = false) data) in
  if N.of_nat (length d) mod 4 =? 1 then None
  else decode_sextets <$> mapM base64_value d.

(** ** Numbers

    A JavaScript number is an IEEE 754 binary64 value. [Finite neg m e] is
    [(-1)^neg * m * 2^e]; zero is [m = 0], and a non-zero value has
    [m < 2^53], [-1074 <= e <= 971], and [2^52 <= m] unless [e = -1074].
    [JSON.parse] never yields NaN. *)
Inductive Number :=
  | Finite (neg : bool) (m e : Z)
  | Infinity (neg : bool).

(** [floor (log2 (num / den))] for positive [num] and [den]. *)
Definition floor_log2_ratio (num den : Z) : Z :=
  let l := (Z.log2 num - Z.log2 den)%Z in
  let above :=
    if (0 <=? l)%Z then (den * 2 ^ l <=? num)%Z
    else (den <=? num * 2 ^ (- l))%Z in
  if above then l else (l - 1)%Z.

(** The binary64 value nearest to [num / den] ([0 <= num], [0 < den]),
    ties to even, overflowing to infinity. *)
Definition to_double (neg : bool) (num den : Z) : Number :=
  if (num =? 0)%Z then Finite neg 0 0
  else
    let e := Z.max (floor_log2_ratio num den - 52) (-1074) in
    let n' := if (0 <=? e)%Z then num else (num * 2 ^ (- e))%Z in
    let d' := if (0 <=? e)%Z then (den * 2 ^ e)%Z else den in
    let q := (n' / d')%Z in
    let r := (n' mod d')%Z in
    let q := if (d' <? 2 * r)%Z || ((d' =? 2 * r)%Z && Z.odd q)
             then (q + 1)%Z else q in
    let (q, e) := if (q =? 2 ^ 53)%Z then ((2 ^ 52)%Z, (e + 1)%Z) else (q, e) in
    if (q =? 0)%Z then Finite neg 0 0
    else if (971 <? e)%Z then Infinity neg
    else Finite neg q e.

(** [m * 10^p] as a fraction. *)
Definition scale10 (m p : Z) : Z * Z :=
  if (0 <=? p)%Z then ((m * 10 ^ p)%Z, 1%Z) else (m, (10 ^ (- p))%Z).

Definition decimal_to_double (neg : bool) (m p : Z) : Number :=
  let (num, den) := scale10 m p in to_double neg num den.

Definition digits_of (n : Z) : jsstring :=
  js (NilEmpty.string_of_uint (N.to_uint (Z.to_N n))).

Fixpoint strip_trailing_zeros (fuel : nat) (s p : Z) : Z * Z :=
  match fuel with
  | O => (s, p)
  | S f => if (s mod 10 =? 0)%Z then strip_trailing_zeros f (s / 10)%Z (p + 1)%Z
           else (s, p)
  end.

(** The shortest decimal [s * 10^p] that reads back as the positive double
    [m * 2^e], the closest to it when several have that length: the digits
    that [Number::toString] prints. [ks] lists the lengths still to try. *)
Fixpoint shortest_decimal (m e n0 : Z) (ks : list Z) : Z * Z :=
  match ks with
  | [] => (m, 0%Z)
  | k :: ks' =>
      let p := (n0 - k)%Z in
      let num := if (0 <=? e)%Z then (m * 2 ^ e)%Z else m in
      let den := if (0 <=? e)%Z then 1%Z else (2 ^ (- e))%Z in
      let n' := if (0 <=? p)%Z then num else (num * 10 ^ (- p))%Z in
      let d' := if (0 <=? p)%Z then (den * 10 ^ p)%Z else den in
      let lo := (n' / d')%Z in
      let r := (n' mod d')%Z in
      let hi := (lo + 1)%Z in
      let reads s := match decimal_to_double false s p with
                     | Finite _ m' e' => (m' =? m)%Z && (e' =? e)%Z
                     | Infinity _ => false
                     end in
      let pick_lo := (2 * r <? d')%Z || ((2 * r =? d')%Z && Z.even lo) in
      match reads lo, reads hi with
      | true, true => if pick_lo then (lo, p) else (hi, p)
      | true, false => (lo, p)
      | false, true => (hi, p)
      | false, false => shortest_decimal m e n0 ks'
      end
  end.

(** The position [n] of the decimal point: [10^(n-1) <= num/den < 10^n]. *)
Definition decimal_exponent (num den : Z) : Z :=
  let t := (Z.of_nat (length (digits_of num)) - Z.of_nat (length (digits_of den)))%Z in
  let above :=
    if (0 <=? t)%Z then (den * 10 ^ t <=? num)%Z
    else (den <=? num * 10 ^ (- t))%Z in
  if above then (t + 1)%Z else t.

Definition zeros (n : Z) : jsstring := repeat 48 (Z.to_nat n).

(** [Number::toString] of a positive finite double, radix 10. *)
Definition positive_to_string (m e : Z) : jsstring :=
  let num := if (0 <=? e)%Z then (m * 2 ^ e)%Z else m in
  let den := if (0 <=? e)%Z then 1%Z else (2 ^ (- e))%Z in
  let n0 := decimal_exponent num den in
  let (s0, p0) := shortest_decimal m e n0 (map Z.of_nat (seq 1 17)) in
  let (s, p) := strip_trailing_zeros 400 s0 p0 in
  let ds := digits_of s in
  let k := Z.of_nat (length ds) in
  let n := (k + p)%Z in
  if (k <=? n)%Z && (n <=? 21)%Z then ds ++ zeros (n - k)
  else if (0 <? n)%Z && (n <=? 21)%Z then
    take (Z.to_nat n) ds ++ 46 :: drop (Z.to_nat n) ds
  else if (-6 <? n)%Z && (n <=? 0)%Z then
    48 :: 46 :: zeros (- n) ++ ds
  else
    let x := (n - 1)%Z in
    let sign := if (x <? 0)%Z then 45 else 43 in
    let mant := match ds with
                | [d] => [d]
                | d :: rest => d :: 46 :: rest
                | [] => []
                end in
    mant ++ 101 :: sign :: digits_of (Z.abs x).

(** ** Values *)

(** What [JSON.parse] can return. The properties of an object are kept in
    the order in which JavaScript enumerates them, each key once. *)
#[warnings="-register-all"]
Inductive JsValue :=
  | JNull
  | JBool (b : bool)
  | JNumber (n : Number)
  | JString (s : jsstring)
  | JArray (items : list JsValue)
  | JObject (props : list (jsstring * JsValue)).

(** [ToBoolean]: what [!v] negates. *)
Definition truthy (v : JsValue) : bool :=
  match v with
  | JNull => false
  | JBool b => b
  | JNumber (Finite _ m _) => negb (m =? 0)%Z
  | JNumber (Infinity _) => true
  | JString s => negb (bool_decide (s = []))
  | JArray _ | JObject _ => true
  end.

(** The index a property key denotes when it is an array index (a
    canonical decimal below [2^32 - 1]); such keys are enumerated first,
    in ascending order. *)
Definition is_digit (c : N) : bool := (48 <=? c) && (c <=? 57).

Definition digits_value (ds : jsstring) : Z :=
  fold_left (fun acc c => (acc * 10 + Z.of_N (c - 48))%Z) ds 0%Z.

Definition array_index (k : jsstring) : option Z :=
  match k with
  | [] => None
  | c :: rest =>
      if forallb is_digit k && (negb (c =? 48) || bool_decide (rest = []))
         && (length k <=? 10)%nat && (digits_value k <? 4294967295)%Z
      then Some (digits_value k) else None
  end.

(** Where a key that is not yet present goes. *)
Fixpoint obj_insert (k : jsstring) (v : JsValue)
    (props : list (jsstring * JsValue)) : list (jsstring * JsValue) :=
  match props with
  | [] => [(k, v)]
  | (k', v') :: rest =>
      match array_index k, array_index k' with
      | Some i, Some i' =>
          if (i <? i')%Z then (k, v) :: props else (k', v') :: obj_insert k v rest
      | Some _, None => (k, v) :: props
      | None, _ => (k', v') :: obj_insert k v rest
      end
  end.

Fixpoint obj_replace (k : jsstring) (v : JsValue)
    (props : list (jsstring * JsValue)) : list (jsstring * JsValue) :=
  match props with
  | [] => []
  | (k', v') :: rest =>
      if bool_decide (k' = k) then (k, v) :: rest
      else (k', v') :: obj_replace k v rest
  end.

(** [obj[k]] for an own property; [None] is [undefined]. *)
Fixpoint obj_get (k : jsstring) (props : list (jsstring * JsValue))
    : option JsValue :=
  match props with
  | [] => None
  | (k', v') :: rest => if bool_decide (k' = k) then Some v' else obj_get k rest
  end.

(** Defining the property [k]: a repeated key keeps its place and takes
    the new value. *)
Definition obj_set (k : jsstring) (v : JsValue)
    (props : list (jsstring * JsValue)) : list (jsstring * JsValue) :=
  match obj_get k props with
  | Some _ => obj_replace k v props
  | None => obj_insert k v props
  end.

(** ** [JSON.parse] *)

Definition is_json_whitespace (c : N) : bool :=
  (c =? 32) || (c =? 9) || (c =? 10) || (c =? 13).

Fixpoint skip_ws (s : jsstring) : jsstring :=
  match s with
  | c :: r => if is_json_whitespace c then skip_ws r else s
  | [] => []
  end.

(** The text after the word [w], when the text starts with it. *)
Fixpoint starts_with_word (w s : jsstring) : option jsstring :=
  match w with
  | [] => Some s
  | c :: w' => starts_with c s ≫= starts_with_word w'
  end.

Fixpoint span_digits (s : jsstring) : jsstring * jsstring :=
  match s with
  | c :: r => if is_digit c then let (ds, r') := span_digits r in (c :: ds, r')
              else ([], s)
  | [] => ([], [])
  end.

Definition hex_value (c : N) : option N :=
  if (48 <=? c) && (c <=? 57) then Some (c - 48)
  else if (65 <=? c) && (c <=? 70) then Some (c - 55)
  else if (97 <=? c) && (c <=? 102) then Some (c - 87)
  else None.

(** The character that a one-letter escape stands for. *)
Definition unescape (c : N) : option N :=
  if c =? 34 then Some 34
  else if c =? 92 then Some 92
  else if c =? 47 then Some 47
  else if c =? 98 then Some 8
  else if c =? 102 then Some 12
  else if c =? 110 then Some 10
  else if c =? 114 then Some 13
  else if c =? 116 then Some 9
  else None.

(** The characters of a string literal after its opening quote, and what
    follows the closing quote. *)
Fixpoint parse_string_chars (s : jsstring) : option (jsstring * jsstring) :=
  match s with
  | [] => None
  | c :: r =>
      if c =? 34 then Some ([], r)
      else if c =? 92 then
        match r with
        | [] => None
        | e :: r' =>
            if e =? 117 then
              match r' with
              | a :: b :: c :: d :: r'' =>
                  a ← hex_value a; b ← hex_value b;
                  c ← hex_value c; d ← hex_value d;
                  '(cs, rest) ← parse_string_chars r'';
                  Some ((a * 4096 + b * 256 + c * 16 + d) :: cs, rest)
              | _ => None
              end
            else
              u ← unescape e;
              '(cs, rest) ← parse_string_chars r';
              Some (u :: cs, rest)
        end
      else if c <? 32 then None
      else '(cs, rest) ← parse_string_chars r; Some (c :: cs, rest)
  end.

(** The fraction of a number literal: nothing, or a point and digits. *)
Definition parse_fraction (s : jsstring) : option (jsstring * jsstring) :=
  match starts_with 46 s with
  | Some r =>
      let (ds, r') := span_digits r in
      if bool_decide (ds = []) then None else Some (ds, r')
  | None => Some ([], s)
  end.

(** The exponent of a number literal: nothing, or [e] or [E], a sign at
    will, and digits. *)
Definition parse_exponent (s : jsstring) : option (Z * jsstring) :=
  match s with
  | c :: r =>
      if (c =? 101) || (c =? 69) then
        let (eneg, r1) :=
          match starts_with 45 r, starts_with 43 r with
          | Some r', _ => (true, r')
          | None, Some r' => (false, r')
          | None, None => (false, r)
          end in
        let (ds, r2) := span_digits r1 in
        if bool_decide (ds = []) then None
        else Some (if eneg then (- digits_value ds)%Z else digits_value ds, r2)
      else Some (0%Z, s)
  | [] => Some (0%Z, s)
  end.

(** A number literal: [-? int frac? exp?], where [int] is [0] or starts
    with another digit. Digits after a leading [0] are refused here; the
    grammar leaves them behind, where nothing accepts them. *)
Definition parse_number (s : jsstring) : option (Number * jsstring) :=
  let (neg, s1) :=
    match starts_with 45 s with
    | Some r => (true, r)
    | None => (false, s)
    end in
  let (int, s2) := span_digits s1 in
  if bool_decide (int = []) then None
  else if bool_decide (is_Some (starts_with 48 int)) && (1 <? length int)%nat
  then None
  else
    '(frac, s3) ← parse_fraction s2;
    '(ex, s4) ← parse_exponent s3;
    Some (decimal_to_double neg (digits_value (int ++ frac))
                            (ex - Z.of_nat (length frac)), s4).

(** A value, the rest of an array after [[] or [,], and the rest of an
    object after [{] or [,]. Each call uses one unit of [fuel]; twice the
    length of the text is enough ([parse_fuel_enough] below). *)
Fixpoint parse_value (fuel : nat) (s : jsstring)
    : option (JsValue * jsstring) :=
  match fuel with
  | O => None
  | S f =>
      match skip_ws s with
      | [] => None
      | c :: r =>
          if c =? 123 then
            match starts_with 125 (skip_ws r) with
            | Some r' => Some (JObject [], r')
            | None => parse_members f r []
            end
          else if c =? 91 then
            match starts_with 93 (skip_ws r) with
            | Some r' => Some (JArray [], r')
            | None => parse_elements f r []
            end
          else if c =? 34 then
            '(cs, r') ← parse_string_chars r; Some (JString cs, r')
          else if c =? 116 then
            r' ← starts_with_word (js "rue") r; Some (JBool true, r')
          else if c =? 102 then
            r' ← starts_with_word (js "alse") r; Some (JBool false, r')
          else if c =? 110 then
            r' ← starts_with_word (js "ull") r; Some (JNull, r')
          else
            '(n, r') ← parse_number (c :: r); Some (JNumber n, r')
      end
  end
with parse_elements (fuel : nat) (s : jsstring) (acc : list JsValue)
    : option (JsValue * jsstring) :=
  match fuel with
  | O => None
  | S f =>
      '(v, r) ← parse_value f s;
      match starts_with 44 (skip_ws r), starts_with 93 (skip_ws r) with
      | Some r', _ => parse_elements f r' (v :: acc)
      | None, Some r' => Some (JArray (rev (v :: acc)), r')
      | None, None => None
      end
  end
with parse_members (fuel : nat) (s : jsstring)
    (acc : list (jsstring * JsValue)) : option (JsValue * jsstring) :=
  match fuel with
  | O => None
  | S f =>
      r ← starts_with 34 (skip_ws s);
      '(k, r1) ← parse_string_chars r;
      r2 ← starts_with 58 (skip_ws r1);
      '(v, r3) ← parse_value f r2;
      match starts_with 44 (skip_ws r3), starts_with 125 (skip_ws r3) with
      | Some r4, _ => parse_members f r4 (obj_set k v acc)
      | None, Some r4 => Some (JObject (obj_set k v acc), r4)
      | None, None => None
      end
  end.

(** What a successful parse consumed bounds the fuel it needs: with [r]
    left of [s], twice [length s - length r] units are enough. *)
Definition fuel_bound {A} (parse : nat → jsstring → A → option (JsValue * jsstring))
    (f : nat) : Prop :=
  ∀ s a v r,
    parse f s a = Some (v, r) →
    (length r < length s)%nat ∧
    ∀ g, (2 * (length s - length r) ≤ g)%nat → parse g s a = Some (v, r).

(** [JSON.parse(text)]: [None] stands for the [SyntaxError] it throws. *)
Definition JSON_parse (text : jsstring) : option JsValue :=
  '(v, r) ← parse_value (2 * length text + 2) text;
  match skip_ws r with
  | [] => Some v
  | _ => None
  end.

(** ** [JSON.stringify] *)

Definition hex_digit (n : N) : N := if n <? 10 then 48 + n else 87 + n.

Definition unicode_escape (c : N) : jsstring :=
  [92; 117; hex_digit (c / 4096); hex_digit ((c / 256) mod 16);
   hex_digit ((c / 16) mod 16); hex_digit (c mod 16)].

Definition is_high_surrogate (c : N) : bool := (55296 <=? c) && (c <=? 56319).
Definition is_low_surrogate (c : N) : bool := (56320 <=? c) && (c <=? 57343).

Definition escape_unit (c : N) : jsstring :=
  if c =? 8 then [92; 98]
  else if c =? 9 then [92; 116]
  else if c =? 10 then [92; 110]
  else if c =? 12 then [92; 102]
  else if c =? 13 then [92; 114]
  else if c =? 34 then [92; 34]
  else if c =? 92 then [92; 92]
  else if c <? 32 then unicode_escape c
  else [c].

(** The body of [QuoteJSONString]: control characters, the quote, the
    backslash and unpaired surrogates are escaped. *)
Fixpoint quote_chars (s : jsstring) : jsstring :=
  match s with
  | [] => []
  | c :: r =>
      if is_high_surrogate c then
        match r with
        | d :: r' =>
            if is_low_surrogate d then c :: d :: quote_chars r'
            else unicode_escape c ++ quote_chars r
        | [] => unicode_escape c
        end
      else if is_low_surrogate c then unicode_escape c ++ quote_chars r
      else escape_unit c ++ quote_chars r
  end.

Definition quote (s : jsstring) : jsstring := 34 :: quote_chars s ++ [34].

Definition number_to_json (n : Number) : jsstring :=
  match n with
  | Infinity _ => js "null"
  | Finite neg m e =>
      if (m =? 0)%Z then [48]
      else (if neg then [45] else []) ++ positive_to_string m e
  end.

(** [JSON.stringify(v)] for a value that [JSON.parse] produced (or an
    object literal built from such values), without indentation. *)
Fixpoint JSON_stringify (v : JsValue) : jsstring :=
  match v with
  | JNull => js "null"
  | JBool b => if b then js "true" else js "false"
  | JNumber n => number_to_json n
  | JString s => quote s
  | JArray items => 91 :: join 44 (map JSON_stringify items) ++ [93]
  | JObject props =>
      123 :: join 44 (map (fun kv => quote (fst kv) ++ 58 :: JSON_stringify (snd kv))
                          props) ++ [125]
  end.

End Js.

Module Http.

(** ** Headers

    A [Headers] object maps header names, compared without regard to
    case, to values; the keys of the map are the lower-case names. A
    value that is set is first normalized, that is, stripped of leading
    and trailing HTTP whitespace; the platform's refusal of a value it
    holds invalid is outside this model. *)
Abbreviation Headers := (gmap string jsstring).

Definition lower_ascii (a : ascii) : ascii :=
  let n := N_of_ascii a in
  if (65 <=? n) && (n <=? 90) then ascii_of_N (n + 32) else a.

Fixpoint to_lower (s : string) : string :=
  match s with
  | EmptyString => EmptyString
  | String a r => String (lower_ascii a) (to_lower r)
  end.

(** [h.get(name)]; [None] is [null] (or [undefined] through Hono's
    [c.req.header]). *)
Definition headers_get (name : string) (h : Headers) : option jsstring :=
  h !! to_lower name.

(** HTTP whitespace: line feed, carriage return, tab and space. *)
Definition is_http_whitespace (c : N) : bool :=
  (c =? 10) || (c =? 13) || (c =? 9) || (c =? 32).

Fixpoint strip_leading (s : jsstring) : jsstring :=
  match s with
  | [] => []
  | c :: r => if is_http_whitespace c then strip_leading r else s
  end.

Definition strip_trailing (s : jsstring) : jsstring :=
  rev (strip_leading (rev s)).

(** The normalization of a header value. *)
Definition normalize (value : jsstring) : jsstring :=
  strip_trailing (strip_leading value).

(** [h.set(name, value)] on a copy: [new Headers(h)] followed by [set]
    leaves [h] itself as it was. *)
Definition headers_set (name : string) (value : jsstring) (h : Headers)
    : Headers :=
  <[to_lower name := normalize value]> h.

(** A body is [null] or a stream, given by the chunks of bytes it
    delivers in order. *)
Definition Body : Type := option (list (list N)).

Record Request := {
  method : jsstring;
  url : jsstring;
  headers : Headers;
  body : Body
}.

Record Response := {
  status : Z;
  response_headers : Headers;
  response_body : Body
}.

(** The arguments of one call [fetch(url, { method, headers, body })]. *)
Record FetchCall := {
  fetch_url : jsstring;
  fetch_method : jsstring;
  fetch_headers : Headers;
  fetch_body : Body
}.

(** What the network answers to a call: a response, or [None] when the
    promise rejects (the call could not be established). *)
Definition Network : Type := FetchCall → option Response.

End Http.

Module Worker.
Import Js Http.

(** The environment of the worker ([interface Bindings]). *)
Record Bindings := {
  CF_AI_GATEWAY_TOKEN : jsstring;
  CF_AI_GATEWAY_URL : jsstring
}.

(** What a [try] block can catch here: an [Error] created by the handler,
    the exceptions of [atob], [JSON.parse] and of reading a property of
    [null], and the rejection of [fetch]. *)
Inductive Thrown :=
  | Error (message : jsstring)
  | InvalidCharacterError
  | SyntaxError
  | TypeError
  | FetchRejection.

(** The effects of a run, in order: lines written with [console.error]
    (the label and the error whose message follows it) and calls of
    [fetch]. *)
Inductive Event :=
  | ConsoleError (label : jsstring) (e : Thrown)
  | Fetch (call : FetchCall).

(** What the handler returns: [c.json(payload, { status })], or the
    response object that [fetch] resolved with. *)
Inductive Reply :=
  | Json (payload : JsValue) (status : Z)
  | Proxied (r : Response).

(** [throw] and sequencing inside a [try] block. *)
Definition Try (A : Type) : Type := Thrown + A.

Definition throw {A} (e : Thrown) : Try A := inl e.

Definition or_throw {A} (e : Thrown) (o : option A) : Try A :=
  match o with
  | Some a => inr a
  | None => inl e
  end.

#[global] Instance Try_ret : MRet Try := fun _ a => inr a.
#[global] Instance Try_bind : MBind Try := fun _ _ f m =>
  match m with
  | inl e => inl e
  | inr a => f a
  end.

(** [{ error: message }] *)
Definition error_object (message : string) : JsValue :=
  JObject [(js "error", JString (js message))].

(** [payload.email]: a [TypeError] on [null], [undefined] ([None]) when
    the value has no such property. *)
Definition email_of (payload : JsValue) : Try (option JsValue) :=
  match payload with
  | JNull => throw TypeError
  | JObject props => mret (obj_get (js "email") props)
  | _ => mret None
  end.

(** Step 2 of the handler, the body of its first [try]: the value of
    [userEmail] when no exception is thrown. *)
Definition decode (token : jsstring) : Try JsValue :=
  let jwtParts := split 46 token in
  if (length jwtParts <? 2)%nat then throw (Error (js "Invalid JWT structure"))
  else
    text ← or_throw InvalidCharacterError (atob (default [] (jwtParts !! 1%nat)));
    payload ← or_throw SyntaxError (JSON_parse text);
    userEmail ← email_of payload;
    match userEmail with
    | Some v =>
        if truthy v then mret v
        else throw (Error (js "Email not found in token payload"))
    | None => throw (Error (js "Email not found in token payload"))
    end.

(** Step 3: the headers and the call of the second [try]. *)
Definition forwardHeaders (env : Bindings) (req : Request)
    (userEmail : JsValue) : Headers :=
  headers_set "cf-aig-metadata"
    (JSON_stringify (JObject [(js "user_id", userEmail)]))
    (headers_set "Authorization" (js "Bearer " ++ CF_AI_GATEWAY_TOKEN env)
       (headers req)).

Definition proxy_call (env : Bindings) (req : Request)
    (userEmail : JsValue) : FetchCall :=
  {| fetch_url := CF_AI_GATEWAY_URL env;
     fetch_method := method req;
     fetch_headers := forwardHeaders env req userEmail;
     fetch_body := body req |}.

(** [!token] for the result of [c.req.header]: absent or empty. *)
Definition no_token (token : option jsstring) : bool :=
  match token with
  | None => true
  | Some t => bool_decide (t = [])
  end.

(** The handler registered by [app.post("*", ...)]: its reply and the
    effects it had, given the environment and the network. *)
Definition handler (env : Bindings) (net : Network) (req : Request)
    : Reply * list Event :=
  let token := headers_get "cf-access-token" (headers req) in
  if no_token token then
    (Json (error_object "Missing authentication token") 401, [])
  else
    match decode (default [] token) with
    | inl e =>
        (Json (error_object "Invalid or malformed token") 401,
         [ConsoleError (js "Failed to decode token:") e])
    | inr userEmail =>
        let call := proxy_call env req userEmail in
        match net call with
        | Some proxyResponse => (Proxied proxyResponse, [Fetch call])
        | None =>
            (Json (error_object "Failed to connect to the upstream service") 502,
             [Fetch call;
              ConsoleError (js "Failed to proxy request to AI Gateway:")
                           FetchRejection])
        end
    end.

(** [app.post("*", ...)]: the route matches every path and the method
    POST only; [None] stands for a request that no route matches, which
    does not reach the handler. *)
Definition app (env : Bindings) (net : Network) (req : Request)
    : option (Reply * list Event) :=
  if bool_decide (method req = js "POST") then Some (handler env net req)
  else None.

(** The calls of [fetch] among the effects of a run. *)
Definition fetches (t : list Event) : list FetchCall :=
  omap (fun ev => match ev with Fetch c => Some c | ConsoleError _ _ => None end) t.

(** The status line the caller sees. *)
Definition reply_status (r : Reply) : Z :=
  match r with
  | Json _ st => st
  | Proxied r => status r
  end.

(** The module declares nothing but [app]: the handler reads and writes
    no variable that outlives a request. Requests served one after the
    other are therefore answered each from its own request and from what
    the network does at that moment. *)
Record Exchange := {
  ex_net : Network;
  ex_req : Request
}.

Definition serve (env : Bindings) (xs : list Exchange)
    : list (Reply * list Event) :=
  map (fun x => handler env (ex_net x) (ex_req x)) xs.

End Worker.

Module Spec.
Import Js Http Worker.

(** Modelled from the spec: the verification primitive, which
    [src/index.ts] does not call. "Verification must check the
    cryptographic signature against every key in the set and accept if any
    one matches": [signed_by k token] is the primitive's answer for one
    key. *)
Definition verifies {Key : Type} (signed_by : Key → jsstring → bool)
    (keys : list Key) (token : jsstring) : bool :=
  existsb (fun k => signed_by k token) keys.

(** Modelled from the spec: the key-set endpoint
    [https://{team}.{access-domain}/cdn-cgi/access/certs], which
    [src/index.ts] never addresses. *)
Definition certs_uri (team : jsstring) : jsstring :=
  js "https://" ++ team ++ js ".cloudflareaccess.com/cdn-cgi/access/certs".

(** A segment that is the base64 of a JSON object. *)
Definition is_object_segment (seg : jsstring) : bool :=
  match atob seg ≫= JSON_parse with
  | Some (JObject _) => true
  | _ => false
  end.

(** A syntactically valid token: header, payload and signature separated
    by dots, the first two being encoded JSON objects. *)
Definition jwt_syntax (token : jsstring) : bool :=
  match split 46 token with
  | [h; p; _] => is_object_segment h && is_object_segment p
  | _ => false
  end.

(** The decoding that the handler's second step performs, in the words of
    the claims: the second dot-separated segment base64-decodes to a JSON
    object with a truthy [email] field, [E]. *)
Definition decodes_to (token : jsstring) (E : JsValue) : Prop :=
  ∃ seg text props,
    split 46 token !! 1%nat = Some seg ∧
    atob seg = Some text ∧
    JSON_parse text = Some (JObject props) ∧
    obj_get (js "email") props = Some E ∧
    truthy E = true.

(** The causes of an authentication failure that the specification
    lists. *)
Inductive AuthFailure :=
  | MissingToken
  | MalformedToken
  | SignatureInvalid
  | ClaimMissing.

Definition email_not_found : Thrown :=
  Error (js "Email not found in token payload").

(** A request fails for a cause: the first, second and fourth as the
    handler detects them, the third as the specification defines it. *)
Definition has_cause {Key : Type} (signed_by : Key → jsstring → bool)
    (keys : list Key) (req : Request) (c : AuthFailure) : Prop :=
  let token := headers_get "cf-access-token" (headers req) in
  match c with
  | MissingToken => no_token token = true
  | MalformedToken =>
      ∃ t e, token = Some t ∧ t ≠ [] ∧ decode t = inl e ∧ e ≠ email_not_found
  | SignatureInvalid =>
      ∃ t, token = Some t ∧ jwt_syntax t = true ∧ verifies signed_by keys t = false
  | ClaimMissing =>
      ∃ t, token = Some t ∧ decode t = inl email_not_found
  end.

(** The first property of the specification's list of testable
    properties about signatures, as it is written: a syntactically valid
    token that no key of the key set signed is answered with 401 and
    nothing is sent upstream. *)
Definition rejects_wrong_signatures : Prop :=
  ∀ (Key : Type) (signed_by : Key → jsstring → bool) (keys : list Key)
    (env : Bindings) (net : Network) (req : Request) (token : jsstring),
    headers_get "cf-access-token" (headers req) = Some token →
    jwt_syntax token = true →
    verifies signed_by keys token = false →
    reply_status (fst (handler env net req)) = 401%Z ∧
    fetches (snd (handler env net req)) = [].

(** The grouping of the four causes, as it is written: each of them is
    answered with status 401. *)
Definition auth_failures_answer_401 : Prop :=
  ∀ (Key : Type) (signed_by : Key → jsstring → bool) (keys : list Key)
    (env : Bindings) (net : Network) (req : Request) (c : AuthFailure),
    has_cause signed_by keys req c →
    reply_status (fst (handler env net req)) = 401%Z.

(** The sentence about the [Authorization] header, as it is written: the
    header of the upstream call is ["Bearer "] followed by the configured
    secret. *)
Definition authorization_is_bearer_and_secret : Prop :=
  ∀ (env : Bindings) (net : Network) (req : Request) (token : jsstring)
    (E : JsValue),
    headers_get "cf-access-token" (headers req) = Some token →
    decode token = inr E →
    ∃ call,
      fetches (snd (handler env net req)) = [call] ∧
      headers_get "Authorization" (fetch_headers call) =
        Some (js "Bearer " ++ CF_AI_GATEWAY_TOKEN env).

(** The end of the retry policy, as it is written: when the key-set
    endpoint fails at every attempt, the request is answered with 401. *)
Definition keyset_outage_answers_401 : Prop :=
  ∀ (env : Bindings) (net : Network) (req : Request) (team token : jsstring),
    headers_get "cf-access-token" (headers req) = Some token →
    token ≠ [] →
    (∀ call, fetch_url call = certs_uri team → net call = None) →
    reply_status (fst (handler env net req)) = 401%Z.

End Spec.

Module Scenario.
Import Js Http Worker Spec.

(** A deployment, a gateway that answers, and requests to run the
    handler on. *)
Definition env : Bindings :=
  {| CF_AI_GATEWAY_TOKEN := js "s3cr3t";
     CF_AI_GATEWAY_URL := js "https://gateway.ai.cloudflare.com/v1/acct/gw/workers-ai/" |}.

(** The same deployment with the secret left empty. *)
Definition no_secret : Bindings :=
  {| CF_AI_GATEWAY_TOKEN := [];
     CF_AI_GATEWAY_URL := CF_AI_GATEWAY_URL env |}.

Definition completion : Response :=
  {| status := 200;
     response_headers := {[ "content-type" := js "text/event-stream" ]};
     response_body := Some [js "data: Hel"; js "lo"; js "data: [DONE]"] |}.

Definition overloaded : Response :=
  {| status := 503;
     response_headers := {[ "retry-after" := js "30" ]};
     response_body := Some [js "busy"] |}.

(** Only the gateway answers; every other address, the key-set endpoint
    of any team included, fails. *)
Definition gateway_only (r : Response) : Network :=
  fun call =>
    if bool_decide (fetch_url call = CF_AI_GATEWAY_URL env) then Some r else None.

(** Nothing answers. *)
Definition unreachable : Network := fun _ => None.

Definition post (path : string) (hs : Headers) : Request :=
  {| method := js "POST";
     url := js path;
     headers := hs;
     body := Some [js "{"; js "}"] |}.

Definition with_token (token : string) : Headers :=
  {[ "cf-access-token" := js token;
     "content-type" := js "application/json";
     "authorization" := js "Bearer of-the-caller" ]}.

(** Header [{"alg":"RS256","typ":"JWT"}], payload
    [{"email":"mallory@example.com"}], and a third segment that is the
    base64 of the text [forged], not a signature under any key. *)
Definition forged_token : string :=
  "eyJhbGciOiJSUzI1NiIsInR5cCI6IkpXVCJ9.eyJlbWFpbCI6Im1hbGxvcnlAZXhhbXBsZS5jb20ifQ.Zm9yZ2Vk".

(** Payload [{"email":"alice@example.com"}]. *)
Definition alice_token : string :=
  "eyJhbGciOiJSUzI1NiIsInR5cCI6IkpXVCJ9.eyJlbWFpbCI6ImFsaWNlQGV4YW1wbGUuY29tIn0.c2ln".

(** The same payload between other segments. *)
Definition alice_token' : string :=
  "x.eyJlbWFpbCI6ImFsaWNlQGV4YW1wbGUuY29tIn0".


(** A payload whose [email] is the empty string. *)
Definition empty_email_token : string :=
  "eyJhbGciOiJSUzI1NiIsInR5cCI6IkpXVCJ9.eyJlbWFpbCI6IiJ9.c2ln".

(** Payload [{"sub":"x"}]. *)
Definition no_email_token : string :=
  "eyJhbGciOiJSUzI1NiIsInR5cCI6IkpXVCJ9.eyJzdWIiOiJ4In0.c2ln".

Definition alice : JsValue := JString (js "alice@example.com").
Definition mallory : JsValue := JString (js "mallory@example.com").

(** A key set of two keys, neither of which signed anything. *)
Definition no_signature : bool → jsstring → bool := fun _ _ => false.
Definition rotating_keys : list bool := [false; true].

End Scenario.

Module Tokens.

(** Two more tokens, for the decoding and for the metadata header. *)

(** Payload [{"email":"dan@example.com","name":"Dan?"}] in the URL-safe
    alphabet of JWTs: its encoding holds a [_]. *)
Definition urlsafe_token : string :=
  "eyJhbGciOiJSUzI1NiIsInR5cCI6IkpXVCJ9.eyJlbWFpbCI6ImRhbkBleGFtcGxlLmNvbSIsIm5hbWUiOiJEYW4_In0.c2ln".

(** A payload whose email is [o], a double quote, [hara], a line feed and
    [@example.com]: [JSON.stringify] escapes two of its characters. *)
Definition escaped_token : string :=
  "eyJhbGciOiJSUzI1NiIsInR5cCI6IkpXVCJ9.eyJlbWFpbCI6Im9cImhhcmFcbkBleGFtcGxlLmNvbSJ9.c2ln".

End Tokens.

Module CodeUnits.
Import Js.

(** Every string inside a value is made of 16-bit code units. *)
Fixpoint strings_ok (v : JsValue) : Prop :=
  match v with
  | JString s => Forall (λ c, c < 65536) s
  | JArray items =>
      (fix all (l : list JsValue) : Prop :=
         match l with
         | [] => True
         | x :: r => strings_ok x ∧ all r
         end) items
  | JObject props =>
      (fix all (l : list (jsstring * JsValue)) : Prop :=
         match l with
         | [] => True
         | kv :: r => strings_ok (snd kv) ∧ all r
         end) props
  | _ => True
  end.

(** What a parser yields from a text of 16-bit code units. *)
Definition parse_keeps_units {A} (acc_ok : A → Prop)
    (parse : nat → jsstring → A → option (JsValue * jsstring)) (f : nat) : Prop :=
  ∀ s a v r,
    Forall (λ c, c < 65536) s → acc_ok a →
    parse f s a = Some (v, r) →
    strings_ok v ∧ Forall (λ c, c < 65536) r.

End CodeUnits.


Module Listing.
Import Js Http Worker.

(** * The key-set variant of the worker, as listed in [README.md]

    The README carries a second version of [index.ts], which gets the key
    set of Cloudflare Access, with retries and a cache, and hands the
    token to [Jwt.verifyWithJwks] before it forwards the request. The
    definitions below follow that listing. *)

Record Bindings := {
  gateway : Worker.Bindings;
  CF_ACCESS_TEAM_NAME : jsstring
}.

(** ** [response.json()]: the body, decoded as UTF-8, then parsed *)

(** The state of the decoder between two bytes of one character: the code
    point so far, the bytes still needed, and the bounds of the next
    byte. *)
Record Pending := {
  code_point : N;
  needed : nat;
  lower : N;
  upper : N
}.

(** A byte that starts a character: a code point, or a state to go on
    from. An invalid byte gives U+FFFD. *)
Definition lead (b : N) : N + Pending :=
  if b <=? 127 then inl b
  else if (194 <=? b) && (b <=? 223) then
    inr {| code_point := b mod 32; needed := 1; lower := 128; upper := 191 |}
  else if (224 <=? b) && (b <=? 239) then
    inr {| code_point := b mod 16; needed := 2;
           lower := if b =? 224 then 160 else 128;
           upper := if b =? 237 then 159 else 191 |}
  else if (240 <=? b) && (b <=? 244) then
    inr {| code_point := b mod 8; needed := 3;
           lower := if b =? 240 then 144 else 128;
           upper := if b =? 244 then 143 else 191 |}
  else inl 65533.

(** The decoder of the Encoding standard: a byte outside the bounds ends
    the character with U+FFFD and is read again as a first byte. *)
Fixpoint utf8_decode (bytes : list N) (st : option Pending) : list N :=
  match bytes with
  | [] => match st with None => [] | Some _ => [65533] end
  | b :: rest =>
      let start :=
        match lead b with
        | inl cp => cp :: utf8_decode rest None
        | inr p => utf8_decode rest (Some p)
        end in
      match st with
      | None => start
      | Some p =>
          if (lower p <=? b) && (b <=? upper p) then
            let cp := code_point p * 64 + b mod 64 in
            match needed p with
            | S (S n) =>
                utf8_decode rest
                  (Some {| code_point := cp; needed := S n;
                           lower := 128; upper := 191 |})
            | _ => cp :: utf8_decode rest None
            end
          else 65533 :: start
      end
  end.

(** The UTF-16 code units of a code point. *)
Definition code_units (cp : N) : jsstring :=
  if cp <? 65536 then [cp]
  else [55296 + (cp - 65536) / 1024; 56320 + (cp - 65536) mod 1024].

(** The text of a body: a byte order mark at the start is kept, as the
    runtime of the worker does, and read as U+FEFF. *)
Definition text_of (bytes : list N) : jsstring :=
  utf8_decode bytes None ≫= code_units.

(** [response.json()]; a [null] body reads as the empty text. *)
Definition json (r : Response) : Try JsValue :=
  or_throw SyntaxError (JSON_parse (text_of (concat (default [] (response_body r))))).

(** [response.ok] *)
Definition ok (r : Response) : bool :=
  (200 <=? status r)%Z && (status r <=? 299)%Z.

(** ** The state of the module *)

(** What [data.keys] can be: a value of the parsed document, [undefined]
    when the document has no such property, or, when the document is an
    array, the method [Array.prototype.keys]. *)
Inductive Keys :=
  | Parsed (v : JsValue)
  | Undefined
  | ArrayKeys.

Definition keys_truthy (k : Keys) : bool :=
  match k with
  | Parsed v => truthy v
  | Undefined => false
  | ArrayKeys => true
  end.

(** [data.keys]: a [TypeError] on [null]. *)
Definition keys_of (data : JsValue) : Try Keys :=
  match data with
  | JNull => throw TypeError
  | JObject props =>
      mret (match obj_get (js "keys") props with
            | Some v => Parsed v
            | None => Undefined
            end)
  | JArray _ => mret ArrayKeys
  | _ => mret Undefined
  end.

(** The two variables of the module, [cachedKeys] and [cacheExpiration]
    (milliseconds since the epoch). *)
Record Cache := {
  cachedKeys : Keys;
  cacheExpiration : Z
}.

Definition initial : Cache :=
  {| cachedKeys := Parsed JNull; cacheExpiration := 0 |}.

(** The effects of a run, in order: those of [Worker], the lines written
    with [console.log] (the text and the error whose message follows it)
    and the timers awaited. *)
Inductive Effect :=
  | Did (ev : Event)
  | ConsoleLog (text : jsstring) (e : Thrown)
  | SetTimeout (delay : N).

Record State := {
  cache : Cache;
  trace : list Effect
}.

Definition emit (evs : list Effect) (st : State) : State :=
  {| cache := cache st; trace := trace st ++ evs |}.

(** The calls of [fetch] and the delays awaited among some effects. *)
Definition fetched (t : list Effect) : list FetchCall :=
  omap (fun ev => match ev with Did (Fetch c) => Some c | _ => None end) t.

Definition awaited (t : list Effect) : list N :=
  omap (fun ev => match ev with SetTimeout d => Some d | _ => None end) t.

(** A number of milliseconds or a status, as a template literal prints
    it. *)
Definition decimal (n : N) : jsstring :=
  js (NilZero.string_of_uint (N.to_uint n)).

Definition integer_text (z : Z) : jsstring :=
  if (z <? 0)%Z then 45 :: decimal (Z.to_N (- z)) else decimal (Z.to_N z).

(** [fetch(input)] without options: a GET with no header and no body. *)
Definition get (uri : jsstring) : FetchCall :=
  {| fetch_url := uri; fetch_method := js "GET";
     fetch_headers := ∅; fetch_body := None |}.

Section Run.

(** What the network answers to a call, given what the worker did before
    it, and the library function [Jwt.verifyWithJwks(token, { keys })],
    which is not part of the repository: the payload it returns, or what
    it throws. *)
Variable net : list Effect → Network.
Variable verifyWithJwks : jsstring → Keys → Try JsValue.

Definition fetch (call : FetchCall) (st : State) : Try Response * State :=
  (or_throw FetchRejection (net (trace st) call), emit [Did (Fetch call)] st).

(** ** [withRetry]

    What [fn] throws is an [Error] here, so that [lastError] is the thrown
    object itself. [attempts] is the loop: [left] is
    [maxAttempts - attempt]; [lastError] is [None] while it is
    unassigned. *)
Definition retry_text (attempt : nat) (delay : N) : jsstring :=
  js "Attempt " ++ decimal (N.of_nat attempt + 1) ++
  js " failed, retrying in " ++ decimal delay ++ js "ms:".

Fixpoint attempts {T} (fn : State → Try T * State) (delays : list N)
    (left attempt : nat) (lastError : option Thrown) (st : State)
    : (option Thrown + T) * State :=
  match left with
  | O => (inl lastError, st)
  | S left' =>
      match fn st with
      | (inr v, st1) => (inr v, st1)
      | (inl error, st1) =>
          let st2 :=
            match delays !! attempt with
            | Some delay =>
                emit [ConsoleLog (retry_text attempt delay) error;
                      SetTimeout delay] st1
            | None => st1
            end in
          attempts fn delays left' (S attempt) (Some error) st2
      end
  end.

Definition withRetry {T} (fn : State → Try T * State) (delays : list N)
    (st : State) : (option Thrown + T) * State :=
  attempts fn delays (length delays + 1) 0 None st.

(** ** [getPublicKeys] *)

Definition certsUri (teamName : jsstring) : jsstring :=
  js "https://" ++ teamName ++ js ".cloudflareaccess.com/cdn-cgi/access/certs".

(** What the function given to [withRetry] makes of the response. *)
Definition keys_in (response : Response) : Try Keys :=
  if ok response then data ← json response; keys_of data
  else throw (Error (js "Failed to fetch JWKS: " ++ integer_text (status response))).

Definition fetch_keys (teamName : jsstring) (st : State) : Try Keys * State :=
  let '(response, st1) := fetch (get (certsUri teamName)) st in
  (response ≫= keys_in, st1).

(** [cachedKeys && now < cacheExpiration] *)
Definition keys_usable (st : State) (now : Z) : bool :=
  keys_truthy (cachedKeys (cache st)) && (now <? cacheExpiration (cache st))%Z.

(** [now] is the value of [Date.now()]. *)
Definition getPublicKeys (now : Z) (teamName : jsstring) (st : State)
    : (option Thrown + Keys) * State :=
  if keys_usable st now then (inr (cachedKeys (cache st)), st)
  else
    match withRetry (fetch_keys teamName) [5000; 10000] st with
    | (inl e, st1) => (inl e, st1)
    | (inr keys, st1) =>
        (inr keys,
         {| cache := {| cachedKeys := keys;
                        cacheExpiration := now + 3600 * 1000 |};
            trace := trace st1 |})
    end.

(** ** The handler *)

(** The [catch] of the second step: a thrown value that is no [Error] is
    logged as ["Unknown error"]. *)
Definition reject (e : option Thrown) (st : State) : (Thrown + Reply) * State :=
  (inr (Json (error_object "Invalid or malformed token") 401%Z),
   emit [Did (ConsoleError (js "JWT verification failed:")
                (default (Error (js "Unknown error")) e))] st).

Definition email_missing : Reply :=
  Json (error_object "Email not found in token payload") 401%Z.

(** The third step, which is that of [index.ts]. *)
Definition forward (env : Bindings) (req : Request) (userEmail : JsValue)
    (st : State) : (Thrown + Reply) * State :=
  match fetch (proxy_call (gateway env) req userEmail) st with
  | (inr proxyResponse, st1) => (inr (Proxied proxyResponse), st1)
  | (inl error, st1) =>
      (inr (Json (error_object "Failed to connect to the upstream service") 502%Z),
       emit [Did (ConsoleError (js "Failed to proxy request to AI Gateway:") error)]
            st1)
  end.

(** The reply, or the exception that leaves the handler: [payload.email]
    is read outside the [try] blocks. *)
Definition handler (env : Bindings) (now : Z) (req : Request) (st : State)
    : (Thrown + Reply) * State :=
  let token := headers_get "cf-access-token" (headers req) in
  if no_token token then
    (inr (Json (error_object "Missing authentication token") 401%Z), st)
  else
    match getPublicKeys now (CF_ACCESS_TEAM_NAME env) st with
    | (inl e, st1) => reject e st1
    | (inr keys, st1) =>
        match verifyWithJwks (default [] token) keys with
        | inl e => reject (Some e) st1
        | inr payload =>
            match email_of payload with
            | inl e => (inl e, st1)
            | inr None => (inr email_missing, st1)
            | inr (Some userEmail) =>
                if truthy userEmail then forward env req userEmail st1
                else (inr email_missing, st1)
            end
        end
    end.

End Run.

(** ** A key-set endpoint and its weather *)

Definition team : jsstring := js "acme".

Definition env : Bindings :=
  {| gateway := Scenario.env; CF_ACCESS_TEAM_NAME := team |}.

Definition key_set : JsValue :=
  JArray [JObject [(js "kid", JString (js "k1")); (js "kty", JString (js "RSA"))]].

(** The document [{"keys":[...]}], delivered in two chunks. *)
Definition jwks : Response :=
  let text := JSON_stringify (JObject [(js "keys", key_set)]) in
  {| status := 200;
     response_headers := {[ "content-type" := js "application/json" ]};
     response_body := Some [take 10 text; drop 10 text] |}.

(** The endpoint fails for the first [n] calls of the run, with status 503
    when [n] is odd and without a connection otherwise, and answers
    afterwards; the gateway answers throughout. *)
Definition flaky (n : nat) : list Effect → Network :=
  fun t call =>
    if bool_decide (fetch_url call = certsUri team) then
      if (length (fetched t) <? n)%nat then
        if Nat.odd n then Some Scenario.overloaded else None
      else Some jwks
    else Scenario.gateway_only Scenario.completion call.

(** The endpoint answers 503 throughout. *)
Definition down : list Effect → Network :=
  fun _ call =>
    if bool_decide (fetch_url call = certsUri team) then Some Scenario.overloaded
    else Scenario.gateway_only Scenario.completion call.

(** A verifier that accepts the token of [Scenario.alice_token] under a
    non-empty array of keys and refuses every other one. *)
Definition accepts_alice : jsstring → Keys → Try JsValue :=
  fun token keys =>
    match keys with
    | Parsed (JArray (_ :: _)) =>
        if bool_decide (token = js Scenario.alice_token)
        then inr (JObject [(js "email", Scenario.alice)])
        else inl (Error (js "no key signed this token"))
    | _ => inl (Error (js "no keys"))
    end.

Definition start : State := {| cache := initial; trace := [] |}.

End Listing.

(** * Properties *)

Import Js Http Worker Spec.

(** ** The fuel of the parser *)

Lemma skip_ws_length s : (length (skip_ws s) ≤ length s)%nat.
Proof.
  induction s as [|c s IH]; simpl; [lia|].
  destruct (is_json_whitespace c); simpl; lia.
Qed.

Lemma starts_with_length c s r :
  starts_with c s = Some r → length s = S (length r).
Proof.
  destruct s as [|c' s]; simpl; [done|].
  destruct (c' =? c); [|done]. by intros [= ->].
Qed.

Lemma starts_with_word_length w s r :
  starts_with_word w s = Some r → (length s = length w + length r)%nat.
Proof.
  revert s. induction w as [|c w IH]; intros s; simpl.
  - by intros [= ->].
  - destruct (starts_with c s) as [s'|] eqn:Hc; simpl; [|done].
    intros Hw%IH. apply starts_with_length in Hc. lia.
Qed.

Lemma span_digits_length s ds r :
  span_digits s = (ds, r) → (length s = length ds + length r)%nat.
Proof.
  revert ds r. induction s as [|c s IH]; intros ds r; simpl.
  - by intros [= <- <-].
  - destruct (is_digit c).
    + destruct (span_digits s) as [ds' r'] eqn:Hs. intros [= <- <-].
      specialize (IH _ _ eq_refl). simpl. lia.
    + by intros [= <- <-].
Qed.

Lemma parse_string_chars_length s cs r :
  parse_string_chars s = Some (cs, r) → (length r < length s)%nat.
Proof.
  remember (length s) as n eqn:Hn. revert s cs r Hn.
  induction n as [n IH] using lt_wf_ind. intros s cs r ->.
  destruct s as [|c s]; simpl; [done|].
  destruct (c =? 34); [intros [= <- <-]; lia|].
  destruct (c =? 92).
  - destruct s as [|e s]; [done|].
    destruct (e =? 117).
    + destruct s as [|a [|b [|c' [|d s]]]]; try done.
      destruct (hex_value a); simpl; [|done].
      destruct (hex_value b); simpl; [|done].
      destruct (hex_value c'); simpl; [|done].
      destruct (hex_value d); simpl; [|done].
      destruct (parse_string_chars s) as [[cs' r']|] eqn:Hs; simpl; [|done].
      intros [= <- <-]. apply (IH (length s)) in Hs; simpl; [lia..|done].
    + destruct (unescape e); simpl; [|done].
      destruct (parse_string_chars s) as [[cs' r']|] eqn:Hs; simpl; [|done].
      intros [= <- <-]. apply (IH (length s)) in Hs; simpl; [lia..|done].
  - destruct (c <? 32); [done|].
    destruct (parse_string_chars s) as [[cs' r']|] eqn:Hs; simpl; [|done].
    intros [= <- <-]. apply (IH (length s)) in Hs; simpl; [lia..|done].
Qed.

Lemma parse_fraction_length s ds r :
  parse_fraction s = Some (ds, r) → (length r ≤ length s)%nat.
Proof.
  unfold parse_fraction.
  destruct (starts_with 46 s) as [s'|] eqn:Hp; [|intros [= <- <-]; lia].
  destruct (span_digits s') as [ds' r'] eqn:Hs.
  destruct (bool_decide (ds' = [])); [done|]. intros [= <- <-].
  apply starts_with_length in Hp. apply span_digits_length in Hs. lia.
Qed.

Lemma parse_exponent_length s x r :
  parse_exponent s = Some (x, r) → (length r ≤ length s)%nat.
Proof.
  unfold parse_exponent. destruct s as [|c s]; [by intros [= <- <-]|].
  destruct ((c =? 101) || (c =? 69)); [|by intros [= <- <-]].
  destruct (starts_with 45 s) as [s'|] eqn:Hminus;
    [|destruct (starts_with 43 s) as [s'|] eqn:Hplus];
    (destruct (span_digits _) as [ds r'] eqn:Hs;
     destruct (bool_decide (ds = [])); [done|]; intros [= <- <-];
     apply span_digits_length in Hs;
     repeat match goal with
            | H : starts_with _ _ = Some _ |- _ => apply starts_with_length in H
            end; simpl; lia).
Qed.

Lemma parse_number_length s n r :
  parse_number s = Some (n, r) → (length r < length s)%nat.
Proof.
  unfold parse_number.
  assert (∀ s1, (length s1 ≤ length s)%nat →
            match span_digits s1 with
            | (int, s2) =>
                ∀ neg,
                (if bool_decide (int = []) then None
                 else if bool_decide (is_Some (starts_with 48 int))
                         && (1 <? length int)%nat then None
                 else '(frac, s3) ← parse_fraction s2;
                      '(ex, s4) ← parse_exponent s3;
                      Some (decimal_to_double neg (digits_value (int ++ frac))
                              (ex - Z.of_nat (length frac)), s4)) = Some (n, r) →
                (length r < length s)%nat
            end) as Hrest.
  { intros s1 Hs1. destruct (span_digits s1) as [int s2] eqn:Hint. intros neg.
    destruct int as [|d int]; [done|]. rewrite bool_decide_eq_false_2 by done.
    destruct (_ && _); [done|].
    destruct (parse_fraction s2) as [[frac s3]|] eqn:Hfrac; simpl; [|done].
    destruct (parse_exponent s3) as [[ex s4]|] eqn:Hex; simpl; [|done].
    intros [= <- <-]. apply span_digits_length in Hint.
    apply parse_fraction_length in Hfrac. apply parse_exponent_length in Hex.
    simpl in Hint. lia. }
  destruct (starts_with 45 s) as [s1|] eqn:Hminus.
  - apply starts_with_length in Hminus. specialize (Hrest s1 ltac:(lia)).
    destruct (span_digits s1). apply Hrest.
  - specialize (Hrest s ltac:(lia)). destruct (span_digits s). apply Hrest.
Qed.

Lemma parse_value_S f s :
  parse_value (S f) s =
    match skip_ws s with
    | [] => None
    | c :: r =>
        if c =? 123 then
          match starts_with 125 (skip_ws r) with
          | Some r' => Some (JObject [], r')
          | None => parse_members f r []
          end
        else if c =? 91 then
          match starts_with 93 (skip_ws r) with
          | Some r' => Some (JArray [], r')
          | None => parse_elements f r []
          end
        else if c =? 34 then
          '(cs, r') ← parse_string_chars r; Some (JString cs, r')
        else if c =? 116 then
          r' ← starts_with_word (js "rue") r; Some (JBool true, r')
        else if c =? 102 then
          r' ← starts_with_word (js "alse") r; Some (JBool false, r')
        else if c =? 110 then
          r' ← starts_with_word (js "ull") r; Some (JNull, r')
        else
          '(n, r') ← parse_number (c :: r); Some (JNumber n, r')
    end.
Proof. reflexivity. Qed.

Lemma parse_elements_S f s acc :
  parse_elements (S f) s acc =
    '(v, r) ← parse_value f s;
    match starts_with 44 (skip_ws r), starts_with 93 (skip_ws r) with
    | Some r', _ => parse_elements f r' (v :: acc)
    | None, Some r' => Some (JArray (rev (v :: acc)), r')
    | None, None => None
    end.
Proof. reflexivity. Qed.

Lemma parse_members_S f s acc :
  parse_members (S f) s acc =
    r ← starts_with 34 (skip_ws s);
    '(k, r1) ← parse_string_chars r;
    r2 ← starts_with 58 (skip_ws r1);
    '(v, r3) ← parse_value f r2;
    match starts_with 44 (skip_ws r3), starts_with 125 (skip_ws r3) with
    | Some r4, _ => parse_members f r4 (obj_set k v acc)
    | None, Some r4 => Some (JObject (obj_set k v acc), r4)
    | None, None => None
    end.
Proof. reflexivity. Qed.

Ltac length_facts :=
  repeat match goal with
         | H : starts_with _ _ = Some _ |- _ => apply starts_with_length in H
         | H : starts_with_word _ _ = Some _ |- _ =>
             apply starts_with_word_length in H; simpl in H
         | H : parse_string_chars _ = Some _ |- _ =>
             apply parse_string_chars_length in H
         | H : parse_number _ = Some _ |- _ => apply parse_number_length in H
         | H : skip_ws ?s = _ :: _ |- _ =>
             let L := fresh in
             pose proof (skip_ws_length s) as L; rewrite H in L; clear H
         | |- context [skip_ws ?s] =>
             lazymatch goal with
             | _ : (length (skip_ws s) ≤ length s)%nat |- _ => fail
             | _ => pose proof (skip_ws_length s)
             end
         | _ : context [skip_ws ?s] |- _ =>
             lazymatch goal with
             | _ : (length (skip_ws s) ≤ length s)%nat |- _ => fail
             | _ => pose proof (skip_ws_length s)
             end
         end; simpl length in *.

Lemma parse_fuel_enough f :
  fuel_bound (λ f s (_ : unit), parse_value f s) f
  ∧ fuel_bound parse_elements f
  ∧ fuel_bound parse_members f.
Proof.
  induction f as [|f (IHv & IHe & IHm)]; [by repeat split|].
  split; [|split].
  - intros s [] v r. rewrite parse_value_S.
    destruct (skip_ws s) as [|c s'] eqn:Hws; [done|].
    destruct (c =? 123) eqn:H123;
      [|destruct (c =? 91) eqn:H91;
        [|destruct (c =? 34) eqn:H34;
          [|destruct (c =? 116) eqn:H116;
            [|destruct (c =? 102) eqn:H102;
              [|destruct (c =? 110) eqn:H110]]]]].
    + destruct (starts_with 125 (skip_ws s')) as [r'|] eqn:Hclose.
      * intros [= <- <-]. split; [length_facts; lia|].
        intros [|g] Hg; [length_facts; lia|].
        by rewrite parse_value_S, Hws, H123, Hclose.
      * intros Hm. destruct (IHm _ _ _ _ Hm) as [Hlen Hfuel].
        split; [length_facts; lia|].
        intros [|g] Hg; [length_facts; lia|].
        rewrite parse_value_S, Hws, H123, Hclose. apply Hfuel.
        length_facts; lia.
    + destruct (starts_with 93 (skip_ws s')) as [r'|] eqn:Hclose.
      * intros [= <- <-]. split; [length_facts; lia|].
        intros [|g] Hg; [length_facts; lia|].
        by rewrite parse_value_S, Hws, H123, H91, Hclose.
      * intros He. destruct (IHe _ _ _ _ He) as [Hlen Hfuel].
        split; [length_facts; lia|].
        intros [|g] Hg; [length_facts; lia|].
        rewrite parse_value_S, Hws, H123, H91, Hclose. apply Hfuel.
        length_facts; lia.
    + destruct (parse_string_chars s') as [[cs r']|] eqn:Hstr; simpl; [|done].
      intros [= <- <-]. split; [length_facts; lia|].
      intros [|g] Hg; [length_facts; lia|].
      by rewrite parse_value_S, Hws, H123, H91, H34, Hstr.
    + destruct (starts_with_word (js "rue") s') as [r'|] eqn:Hword; simpl; [|done].
      intros [= <- <-]. split; [length_facts; lia|].
      intros [|g] Hg; [length_facts; lia|].
      by rewrite parse_value_S, Hws, H123, H91, H34, H116, Hword.
    + destruct (starts_with_word (js "alse") s') as [r'|] eqn:Hword; simpl; [|done].
      intros [= <- <-]. split; [length_facts; lia|].
      intros [|g] Hg; [length_facts; lia|].
      by rewrite parse_value_S, Hws, H123, H91, H34, H116, H102, Hword.
    + destruct (starts_with_word (js "ull") s') as [r'|] eqn:Hword; simpl; [|done].
      intros [= <- <-]. split; [length_facts; lia|].
      intros [|g] Hg; [length_facts; lia|].
      by rewrite parse_value_S, Hws, H123, H91, H34, H116, H102, H110, Hword.
    + destruct (parse_number (c :: s')) as [[n r']|] eqn:Hnum; simpl; [|done].
      intros [= <- <-]. split; [length_facts; lia|].
      intros [|g] Hg; [length_facts; lia|].
      by rewrite parse_value_S, Hws, H123, H91, H34, H116, H102, H110, Hnum.
  - intros s acc v r. rewrite parse_elements_S.
    destruct (parse_value f s) as [[v1 r1]|] eqn:Hv; simpl; [|done].
    destruct (IHv _ tt _ _ Hv) as [Hlen1 Hfuel1].
    destruct (starts_with 44 (skip_ws r1)) as [r'|] eqn:Hcomma;
      [|destruct (starts_with 93 (skip_ws r1)) as [r'|] eqn:Hclose; [|done]].
    + intros He. destruct (IHe _ _ _ _ He) as [Hlen Hfuel].
      split; [length_facts; lia|].
      intros [|g] Hg; [length_facts; lia|].
      rewrite parse_elements_S, Hfuel1 by (length_facts; lia). simpl.
      rewrite Hcomma. apply Hfuel. length_facts; lia.
    + intros [= <- <-]. split; [length_facts; lia|].
      intros [|g] Hg; [length_facts; lia|].
      rewrite parse_elements_S, Hfuel1 by (length_facts; lia). simpl.
      by rewrite Hcomma, Hclose.
  - intros s acc v r. rewrite parse_members_S.
    destruct (starts_with 34 (skip_ws s)) as [s1|] eqn:Hquote; simpl; [|done].
    destruct (parse_string_chars s1) as [[k s2]|] eqn:Hkey; simpl; [|done].
    destruct (starts_with 58 (skip_ws s2)) as [s3|] eqn:Hcolon; simpl; [|done].
    destruct (parse_value f s3) as [[v1 r1]|] eqn:Hv; simpl; [|done].
    destruct (IHv _ tt _ _ Hv) as [Hlen1 Hfuel1].
    assert (∀ g, parse_members (S g) s acc =
                 '(v, r3) ← parse_value g s3;
                 match starts_with 44 (skip_ws r3), starts_with 125 (skip_ws r3) with
                 | Some r4, _ => parse_members g r4 (obj_set k v acc)
                 | None, Some r4 => Some (JObject (obj_set k v acc), r4)
                 | None, None => None
                 end) as Hstep.
    { intros g. rewrite parse_members_S, Hquote. simpl. rewrite Hkey. simpl.
      by rewrite Hcolon. }
    destruct (starts_with 44 (skip_ws r1)) as [r'|] eqn:Hcomma;
      [|destruct (starts_with 125 (skip_ws r1)) as [r'|] eqn:Hclose; [|done]].
    + intros Hm. destruct (IHm _ _ _ _ Hm) as [Hlen Hfuel].
      split; [length_facts; lia|].
      intros [|g] Hg; [length_facts; lia|].
      rewrite Hstep, Hfuel1 by (length_facts; lia). simpl.
      rewrite Hcomma. apply Hfuel. length_facts; lia.
    + intros [= <- <-]. split; [length_facts; lia|].
      intros [|g] Hg; [length_facts; lia|].
      rewrite Hstep, Hfuel1 by (length_facts; lia). simpl.
      by rewrite Hcomma, Hclose.
Qed.

(** If some amount of fuel parses the whole text, [JSON_parse] does. *)
Lemma JSON_parse_fuel f text v r :
  parse_value f text = Some (v, r) → skip_ws r = [] → JSON_parse text = Some v.
Proof.
  intros Hv Hr. destruct (proj1 (parse_fuel_enough f) _ tt _ _ Hv) as [_ Hfuel].
  unfold JSON_parse. rewrite Hfuel by lia. simpl. by rewrite Hr.
Qed.

(** ** The alphabet of [atob] *)

Lemma starts_with_Some c s r : starts_with c s = Some r → s = c :: r.
Proof.
  destruct s as [|c' s]; simpl; [done|].
  destruct (N.eqb_spec c' c) as [->|]; [|done]. by intros [= ->].
Qed.

Lemma elem_of_rev (c : N) (s : jsstring) : c ∈ rev s ↔ c ∈ s.
Proof. rewrite !list_elem_of_In. symmetry. apply in_rev. Qed.

Lemma strip_padding_keeps c s : c ≠ 61 → c ∈ s → c ∈ strip_padding s.
Proof.
  intros Hc Hin. unfold strip_padding. destruct (_ =? 0); [|done].
  destruct (starts_with 61 (rev s)) as [r|] eqn:Hr; [|done].
  apply starts_with_Some in Hr.
  assert (c ∈ r) as Hin'.
  { apply elem_of_rev in Hin. rewrite Hr in Hin.
    by apply elem_of_cons in Hin as [|]. }
  destruct (starts_with 61 r) as [r'|] eqn:Hr'; [|by apply elem_of_rev].
  apply starts_with_Some in Hr'. subst r.
  apply elem_of_cons in Hin' as [|Hin']; [done|]. by apply elem_of_rev.
Qed.

(** [atob] knows the standard alphabet only: a segment that uses a
    character outside it, such as the [-] and [_] of the URL-safe
    alphabet, is refused. *)
Lemma atob_alphabet c data :
  c ∈ data → is_ascii_whitespace c = false → c ≠ 61 → base64_value c = None →
  atob data = None.
Proof.
  intros Hin Hws Hpad Hval. unfold atob.
  set (d := strip_padding _).
  assert (c ∈ d) as Hd.
  { apply strip_padding_keeps; [done|]. by apply list_elem_of_filter. }
  destruct (_ =? 1); [done|].
  destruct (mapM base64_value d) as [l|] eqn:Hm; [|done].
  assert (is_Some (mapM base64_value d)) as Hsome by (by rewrite Hm).
  apply mapM_is_Some in Hsome. rewrite Forall_forall in Hsome.
  apply Hsome in Hd. simpl in Hd. rewrite Hval in Hd. by destruct Hd.
Qed.
(** ** Splitting and joining *)

Lemma split_nonempty sep s : split sep s ≠ [].
Proof.
  destruct s as [|c s]; simpl; [done|].
  destruct (c =? sep); [done|]. by destruct (split sep s).
Qed.

Lemma split_without_sep sep s : sep ∉ s → split sep s = [s].
Proof.
  induction s as [|c s IH]; intros Hs; simpl; [done|].
  apply not_elem_of_cons in Hs as [Hc Hs].
  destruct (N.eqb_spec c sep); [congruence|]. by rewrite IH.
Qed.

Lemma split_app sep s r :
  sep ∉ s → split sep (s ++ sep :: r) = s :: split sep r.
Proof.
  induction s as [|c s IH]; intros Hs; simpl.
  - by rewrite N.eqb_refl.
  - apply not_elem_of_cons in Hs as [Hc Hs].
    destruct (N.eqb_spec c sep); [congruence|]. by rewrite IH.
Qed.

Lemma split_join sep parts :
  parts ≠ [] → Forall (λ p, sep ∉ p) parts → split sep (join sep parts) = parts.
Proof.
  induction parts as [|p [|q parts] IH]; intros Hne Hall; [done|..].
  - simpl. apply split_without_sep. by inversion Hall.
  - change (join sep (p :: q :: parts)) with (p ++ sep :: join sep (q :: parts)).
    inversion Hall as [|? ? Hp Hrest]; subst.
    rewrite split_app by done. f_equal. by apply IH.
Qed.

Lemma split_has_second sep s :
  sep ∈ s ↔ is_Some (split sep s !! 1%nat).
Proof.
  induction s as [|c s IH]; simpl.
  - split; [by intros ?%elem_of_nil | by intros [? ?]].
  - destruct (N.eqb_spec c sep) as [->|Hne].
    + split; [|intros _; left].
      intros _. pose proof (split_nonempty sep s).
      destruct (split sep s); [done|]. by eexists.
    + rewrite elem_of_cons, IH.
      pose proof (split_nonempty sep s).
      destruct (split sep s) as [|p ps]; [done|]. simpl.
      split; [intros [?|?]; [congruence|done] | by right].
Qed.

(** ** The decoding step *)

Lemma decode_empty : decode [] = inl (Error (js "Invalid JWT structure")).
Proof. reflexivity. Qed.

Lemma decode_some_nonempty token E : decode token = inr E → token ≠ [].
Proof. intros H ->. by rewrite decode_empty in H. Qed.

(** The decoding reads the token through its second segment only. *)
Lemma decode_second_segment token :
  decode token =
    match split 46 token !! 1%nat with
    | None => inl (Error (js "Invalid JWT structure"))
    | Some seg =>
        text ← or_throw InvalidCharacterError (atob seg);
        payload ← or_throw SyntaxError (JSON_parse text);
        userEmail ← email_of payload;
        match userEmail with
        | Some v => if truthy v then mret v else throw email_not_found
        | None => throw email_not_found
        end
    end.
Proof.
  unfold decode. destruct (split 46 token) as [|h [|p rest]]; reflexivity.
Qed.

(** Closes a case in which the [try] block threw. *)
Ltac thrown :=
  let H := fresh in intros H; cbv beta iota in H; discriminate H.

Lemma decode_inr_iff token E : decode token = inr E ↔ decodes_to token E.
Proof.
  rewrite decode_second_segment. unfold decodes_to.
  unfold email_of, mbind, Try_bind, mret, Try_ret, or_throw, throw. split.
  - destruct (split 46 token !! 1%nat) as [seg|]; [|thrown].
    destruct (atob seg) as [text|] eqn:Hatob; [|thrown].
    destruct (JSON_parse text) as [payload|] eqn:Hparse; [|thrown].
    destruct payload as [| | | | |props]; try (thrown).
    destruct (obj_get (js "email") props) as [v|] eqn:Hget; [|thrown].
    destruct (truthy v) eqn:Htruthy; [|thrown].
    intros [= <-]. by exists seg, text, props.
  - intros (seg & text & props & -> & -> & -> & Hget & Htruthy).
    by rewrite Hget, Htruthy.
Qed.

Lemma decodes_to_unique token E E' :
  decodes_to token E → decodes_to token E' → E = E'.
Proof. rewrite <- !decode_inr_iff. congruence. Qed.

(** A payload segment in the URL-safe alphabet, when it uses one of the
    two characters that differ, makes the decoding throw. *)
Lemma urlsafe_payload_is_rejected token seg :
  split 46 token !! 1%nat = Some seg →
  45 ∈ seg ∨ 95 ∈ seg →
  decode token = inl InvalidCharacterError.
Proof.
  intros Hseg Hin. rewrite decode_second_segment, Hseg.
  replace (atob seg) with (@None jsstring); [done|].
  symmetry. destruct Hin as [Hin|Hin].
  - by apply (atob_alphabet 45).
  - by apply (atob_alphabet 95).
Qed.

(** Two segments are enough, and what stands before the dot is not
    read. *)
Example two_segments_suffice :
  decode (js Scenario.alice_token') = inr Scenario.alice.
Proof. vm_compute. reflexivity. Qed.

(** ** The handler, case by case *)

Section Cases.
Variables (env : Bindings) (net : Network) (req : Request).

Lemma handler_no_token :
  no_token (headers_get "cf-access-token" (headers req)) = true →
  handler env net req =
    (Json (error_object "Missing authentication token") 401%Z, []).
Proof. intros H. unfold handler. by rewrite H. Qed.

Lemma handler_decode_error token e :
  headers_get "cf-access-token" (headers req) = Some token →
  token ≠ [] →
  decode token = inl e →
  handler env net req =
    (Json (error_object "Invalid or malformed token") 401%Z,
     [ConsoleError (js "Failed to decode token:") e]).
Proof.
  intros Hh Hne Hd. unfold handler. rewrite Hh. simpl.
  rewrite bool_decide_eq_false_2 by done. by rewrite Hd.
Qed.

Lemma handler_decoded token E :
  headers_get "cf-access-token" (headers req) = Some token →
  decode token = inr E →
  handler env net req =
    match net (proxy_call env req E) with
    | Some proxyResponse => (Proxied proxyResponse, [Fetch (proxy_call env req E)])
    | None =>
        (Json (error_object "Failed to connect to the upstream service") 502%Z,
         [Fetch (proxy_call env req E);
          ConsoleError (js "Failed to proxy request to AI Gateway:") FetchRejection])
    end.
Proof.
  intros Hh Hd. pose proof (decode_some_nonempty _ _ Hd) as Hne.
  unfold handler. rewrite Hh. simpl.
  rewrite bool_decide_eq_false_2 by done. by rewrite Hd.
Qed.

Lemma fetches_decoded token E :
  headers_get "cf-access-token" (headers req) = Some token →
  decode token = inr E →
  fetches (snd (handler env net req)) = [proxy_call env req E].
Proof.
  intros Hh Hd. rewrite (handler_decoded _ _ Hh Hd).
  by destruct (net (proxy_call env req E)).
Qed.

(** Whatever the request, the handler ends in one of four ways. *)
Lemma handler_cases :
  handler env net req = (Json (error_object "Missing authentication token") 401%Z, [])
  ∨ (∃ token e,
       headers_get "cf-access-token" (headers req) = Some token ∧ token ≠ [] ∧
       decode token = inl e ∧
       handler env net req =
         (Json (error_object "Invalid or malformed token") 401%Z,
          [ConsoleError (js "Failed to decode token:") e]))
  ∨ (∃ token E r,
       headers_get "cf-access-token" (headers req) = Some token ∧
       decode token = inr E ∧ net (proxy_call env req E) = Some r ∧
       handler env net req = (Proxied r, [Fetch (proxy_call env req E)]))
  ∨ (∃ token E,
       headers_get "cf-access-token" (headers req) = Some token ∧
       decode token = inr E ∧ net (proxy_call env req E) = None ∧
       handler env net req =
         (Json (error_object "Failed to connect to the upstream service") 502%Z,
          [Fetch (proxy_call env req E);
           ConsoleError (js "Failed to proxy request to AI Gateway:") FetchRejection])).
Proof.
  destruct (no_token (headers_get "cf-access-token" (headers req))) eqn:Hno.
  { left. by apply handler_no_token. }
  right.
  destruct (headers_get "cf-access-token" (headers req)) as [token|] eqn:Hh;
    [|done].
  simpl in Hno. apply bool_decide_eq_false in Hno.
  destruct (decode token) as [e|E] eqn:Hd.
  { left. exists token, e. repeat split; try done.
    by apply (handler_decode_error token). }
  right. pose proof (handler_decoded _ _ Hh Hd) as Hrun.
  destruct (net (proxy_call env req E)) as [r|] eqn:Hnet.
  - left. by exists token, E, r.
  - right. by exists token, E.
Qed.

Lemma fetches_at_most_one :
  (length (fetches (snd (handler env net req))) ≤ 1)%nat.
Proof.
  destruct handler_cases
    as [->|[(?&?&?&?&?&->)|[(?&?&?&?&?&?&->)|(?&?&?&?&?&->)]]]; simpl; lia.
Qed.

Lemma fetches_go_upstream call :
  call ∈ fetches (snd (handler env net req)) →
  fetch_url call = CF_AI_GATEWAY_URL env.
Proof.
  destruct handler_cases
    as [->|[(?&?&?&?&?&->)|[(?&?&?&?&?&?&->)|(?&?&?&?&?&->)]]]; simpl;
    rewrite ?elem_of_nil, ?list_elem_of_singleton; try done; by intros ->.
Qed.
End Cases.

(** ** Headers *)

Lemma headers_get_set name v h :
  headers_get name (headers_set name v h) = Some (normalize v).
Proof. apply lookup_insert_eq. Qed.

Lemma strip_leading_app x y :
  strip_leading (x ++ y) =
    if bool_decide (strip_leading x = []) then strip_leading y
    else strip_leading x ++ y.
Proof.
  induction x as [|c x IH]; simpl; [done|].
  destruct (is_http_whitespace c); [done|].
  by rewrite bool_decide_eq_false_2.
Qed.

Lemma strip_trailing_app a b :
  strip_trailing (a ++ b) =
    if bool_decide (strip_trailing b = []) then strip_trailing a
    else a ++ strip_trailing b.
Proof.
  unfold strip_trailing. rewrite rev_app_distr, strip_leading_app.
  destruct (strip_leading (rev b)) as [|c r] eqn:Hb.
  - by rewrite !bool_decide_eq_true_2.
  - assert (rev (c :: r) ≠ []) as Hne.
    { simpl. by intros [_ ?]%app_eq_nil. }
    rewrite (bool_decide_eq_false_2 (c :: r = [])) by done.
    rewrite (bool_decide_eq_false_2 (rev (c :: r) = [])) by done.
    by rewrite rev_app_distr, rev_involutive.
Qed.

(** A value that ends in no whitespace has nothing to strip there. *)
Lemma strip_trailing_last s c :
  last s = Some c → is_http_whitespace c = false → strip_trailing s = s.
Proof.
  intros [s' ->]%last_Some Hc. unfold strip_trailing.
  rewrite rev_app_distr. simpl. rewrite Hc. simpl.
  by rewrite rev_involutive.
Qed.

(** The value of the [Authorization] header, normalized. *)
Lemma bearer_value secret :
  normalize (js "Bearer " ++ secret) =
    if bool_decide (strip_trailing secret = []) then js "Bearer"
    else js "Bearer " ++ strip_trailing secret.
Proof.
  unfold normalize.
  change (strip_leading (js "Bearer " ++ secret)) with (js "Bearer " ++ secret).
  by rewrite strip_trailing_app.
Qed.

(** The JSON text of an object starts with a brace and ends with one. *)
Lemma normalize_object props :
  normalize (JSON_stringify (JObject props)) = JSON_stringify (JObject props).
Proof.
  unfold normalize. simpl JSON_stringify.
  change (strip_leading (123 :: ?s)) with (123 :: s).
  rewrite app_comm_cons. apply (strip_trailing_last _ 125); [|done].
  apply last_snoc.
Qed.

Lemma headers_get_set_other name name' v h :
  to_lower name ≠ to_lower name' →
  headers_get name' (headers_set name v h) = headers_get name' h.
Proof. intros Hne. by apply lookup_insert_ne. Qed.

(** ** The replies of the handler *)

(** The text of the three bodies: [{"error":"..."}]. *)
Lemma error_object_text message :
  JSON_stringify (error_object message) =
    [123; 34] ++ js "error" ++ [34; 58] ++ quote (js message) ++ [125].
Proof. reflexivity. Qed.

(** C2: a request without the [cf-access-token] header is answered with
    status 401 and the body [{"error":"Missing authentication token"}],
    and the run has no effect at all: no call of [fetch], to a key-set
    endpoint or to the upstream. *)
Theorem missing_token_is_401 (env : Bindings) (net : Network) (req : Request) :
  headers_get "cf-access-token" (headers req) = None →
  handler env net req =
    (Json (JObject [(js "error", JString (js "Missing authentication token"))])
          401%Z, [])
  ∧ fetches (snd (handler env net req)) = [].
Proof.
  intros Hh. rewrite handler_no_token; [done|]. by rewrite Hh.
Qed.

Lemma missing_token_is_401_witness :
  handler Scenario.env Scenario.unreachable
          (Scenario.post "/v1/chat" {[ "content-type" := js "application/json" ]}) =
    (Json (JObject [(js "error", JString (js "Missing authentication token"))])
          401%Z, []).
Proof.
  apply (missing_token_is_401 Scenario.env Scenario.unreachable
           (Scenario.post "/v1/chat" {[ "content-type" := js "application/json" ]})).
  vm_compute. reflexivity.
Defined.

(** C3, as stated, fails: with an empty secret the value set is
    ["Bearer "], which [Headers.set] strips of its trailing space, so that
    the call carries [Authorization: Bearer] and not ["Bearer "] followed
    by the secret. *)
Lemma bearer_of_empty_secret_is_bare : ¬ authorization_is_bearer_and_secret.
Proof.
  intros H.
  destruct (H Scenario.no_secret (Scenario.gateway_only Scenario.completion)
              (Scenario.post "/v1/chat" (Scenario.with_token Scenario.alice_token))
              (js Scenario.alice_token) Scenario.alice)
    as (call & Hcall & Hauth); [vm_compute; reflexivity ..|].
  vm_compute in Hcall. injection Hcall as <-.
  vm_compute in Hauth. discriminate Hauth.
Qed.

(** C3, amended: when the token decodes to the identity [E], the run makes
    exactly one call of [fetch]; it uses the method of the inbound
    request, the inbound headers with [Authorization] replaced by
    ["Bearer "] followed by the configured secret, less the whitespace
    that [Headers.set] strips from the end of the value (so it is
    ["Bearer "] and the secret itself when the secret ends in a character
    that is no whitespace, and [Bearer] alone when the secret is empty or
    all whitespace), and [cf-aig-metadata] set to the JSON text of
    [{ user_id: E }], every other header as it came in, and the inbound
    body, chunk for chunk. *)
Theorem upstream_call_shape (env : Bindings) (net : Network) (req : Request)
    (token : jsstring) (E : JsValue) :
  headers_get "cf-access-token" (headers req) = Some token →
  decode token = inr E →
  ∃ call,
    fetches (snd (handler env net req)) = [call] ∧
    fetch_method call = method req ∧
    headers_get "Authorization" (fetch_headers call) =
      Some (if bool_decide (strip_trailing (CF_AI_GATEWAY_TOKEN env) = [])
            then js "Bearer"
            else js "Bearer " ++ strip_trailing (CF_AI_GATEWAY_TOKEN env)) ∧
    (∀ c, last (CF_AI_GATEWAY_TOKEN env) = Some c →
          is_http_whitespace c = false →
          headers_get "Authorization" (fetch_headers call) =
            Some (js "Bearer " ++ CF_AI_GATEWAY_TOKEN env)) ∧
    headers_get "cf-aig-metadata" (fetch_headers call) =
      Some (JSON_stringify (JObject [(js "user_id", E)])) ∧
    (∀ name, to_lower name ≠ "authorization" →
             to_lower name ≠ "cf-aig-metadata" →
             headers_get name (fetch_headers call) = headers_get name (headers req)) ∧
    fetch_body call = body req.
Proof.
  intros Hh Hd. exists (proxy_call env req E).
  split; [by apply (fetches_decoded env net req token)|].
  split; [done|]. simpl. unfold forwardHeaders.
  assert (headers_get "Authorization"
            (headers_set "cf-aig-metadata"
               (JSON_stringify (JObject [(js "user_id", E)]))
               (headers_set "Authorization"
                  (js "Bearer " ++ CF_AI_GATEWAY_TOKEN env) (headers req))) =
          Some (if bool_decide (strip_trailing (CF_AI_GATEWAY_TOKEN env) = [])
                then js "Bearer"
                else js "Bearer " ++ strip_trailing (CF_AI_GATEWAY_TOKEN env)))
    as Hauth.
  { rewrite headers_get_set_other by done.
    by rewrite headers_get_set, bearer_value. }
  split; [done|]. split; [|split; [|split; [|done]]].
  - intros c Hlast Hc. rewrite Hauth.
    rewrite (strip_trailing_last _ c Hlast Hc).
    rewrite bool_decide_eq_false_2; [done|].
    intros Hnil. rewrite Hnil in Hlast. discriminate Hlast.
  - by rewrite headers_get_set, normalize_object.
  - intros name Hauth' Hmeta.
    rewrite !headers_get_set_other; [done|..]; by apply not_eq_sym.
Qed.

Lemma upstream_call_shape_witness :
  ∃ call,
    fetches (snd (handler Scenario.env (Scenario.gateway_only Scenario.completion)
                    (Scenario.post "/v1/chat" (Scenario.with_token Scenario.alice_token))))
      = [call] ∧
    fetch_method call = js "POST" ∧
    headers_get "Authorization" (fetch_headers call) = Some (js "Bearer s3cr3t") ∧
    (∀ c, last (js "s3cr3t") = Some c →
          is_http_whitespace c = false →
          headers_get "Authorization" (fetch_headers call) =
            Some (js "Bearer s3cr3t")) ∧
    headers_get "cf-aig-metadata" (fetch_headers call) =
      Some ([123; 34] ++ js "user_id" ++ [34; 58; 34] ++ js "alice@example.com" ++ [34; 125]) ∧
    (∀ name, to_lower name ≠ "authorization" →
             to_lower name ≠ "cf-aig-metadata" →
             headers_get name (fetch_headers call) =
               headers_get name (Scenario.with_token Scenario.alice_token)) ∧
    fetch_body call = Some [js "{"; js "}"].
Proof.
  apply (upstream_call_shape Scenario.env (Scenario.gateway_only Scenario.completion)
           (Scenario.post "/v1/chat" (Scenario.with_token Scenario.alice_token))
           (js Scenario.alice_token) Scenario.alice);
    vm_compute; reflexivity.
Defined.

(** C5: once the token is decoded and the upstream call resolves, the
    handler returns the very response it received: the same status (an
    error status included), the same headers, the same body chunks. *)
Theorem upstream_response_passes_through (env : Bindings) (net : Network)
    (req : Request) (token : jsstring) (E : JsValue) (r : Response) :
  headers_get "cf-access-token" (headers req) = Some token →
  decode token = inr E →
  net (proxy_call env req E) = Some r →
  handler env net req = (Proxied r, [Fetch (proxy_call env req E)]).
Proof.
  intros Hh Hd Hnet. by rewrite (handler_decoded env net req token E), Hnet.
Qed.

Lemma upstream_response_passes_through_witness :
  fst (handler Scenario.env (Scenario.gateway_only Scenario.overloaded)
         (Scenario.post "/v1/chat" (Scenario.with_token Scenario.alice_token))) =
    Proxied {| status := 503;
               response_headers := {[ "retry-after" := js "30" ]};
               response_body := Some [js "busy"] |}.
Proof.
  rewrite (upstream_response_passes_through Scenario.env
             (Scenario.gateway_only Scenario.overloaded)
             (Scenario.post "/v1/chat" (Scenario.with_token Scenario.alice_token))
             (js Scenario.alice_token) Scenario.alice Scenario.overloaded);
    vm_compute; reflexivity.
Defined.

(** C6: when the upstream call cannot be established, the reply is status
    502 with the body [{"error":"Failed to connect to the upstream
    service"}]. The handler holds no state, so there is nothing that the
    failure could change: the requests served before and after it are
    answered as they would be without it. *)
Theorem upstream_failure_is_502 (env : Bindings) (net : Network)
    (req : Request) (token : jsstring) (E : JsValue) :
  headers_get "cf-access-token" (headers req) = Some token →
  decode token = inr E →
  net (proxy_call env req E) = None →
  handler env net req =
    (Json (JObject [(js "error",
                     JString (js "Failed to connect to the upstream service"))])
          502%Z,
     [Fetch (proxy_call env req E);
      ConsoleError (js "Failed to proxy request to AI Gateway:") FetchRejection])
  ∧ ∀ before after,
      serve env (before ++ {| ex_net := net; ex_req := req |} :: after) =
        serve env before ++ handler env net req :: serve env after.
Proof.
  intros Hh Hd Hnet. split.
  - by rewrite (handler_decoded env net req token E), Hnet.
  - intros before after. unfold serve. by rewrite map_app.
Qed.

Lemma upstream_failure_is_502_witness :
  fst (handler Scenario.env Scenario.unreachable
         (Scenario.post "/v1/chat" (Scenario.with_token Scenario.alice_token))) =
    Json (JObject [(js "error",
                    JString (js "Failed to connect to the upstream service"))])
         502%Z.
Proof.
  rewrite (proj1 (upstream_failure_is_502 Scenario.env Scenario.unreachable
             (Scenario.post "/v1/chat" (Scenario.with_token Scenario.alice_token))
             (js Scenario.alice_token) Scenario.alice
             ltac:(vm_compute; reflexivity) ltac:(vm_compute; reflexivity)
             ltac:(reflexivity))).
  reflexivity.
Defined.

(** C10: a request that is accepted makes exactly one call of [fetch],
    and that call is addressed to the configured [CF_AI_GATEWAY_URL]
    whatever the URL of the request is; no run makes a call to another
    address; the path and query of the inbound request play no part: the
    same request under any other URL has the same reply and the same
    effects, and a POST reaches the handler whatever its URL is. *)
Theorem upstream_url_is_configured (env : Bindings) (net : Network)
    (req : Request) :
  (∀ token E u,
     headers_get "cf-access-token" (headers req) = Some token →
     decode token = inr E →
     ∃ call,
       fetches (snd (handler env net
                       {| method := method req; url := u;
                          headers := headers req; body := body req |})) = [call] ∧
       fetch_url call = CF_AI_GATEWAY_URL env)
  ∧ (∀ call, call ∈ fetches (snd (handler env net req)) →
             fetch_url call = CF_AI_GATEWAY_URL env)
  ∧ (∀ u, handler env net
            {| method := method req; url := u;
               headers := headers req; body := body req |}
          = handler env net req)
  ∧ (∀ u, app env net
            {| method := js "POST"; url := u;
               headers := headers req; body := body req |}
          = Some (handler env net
                    {| method := js "POST"; url := url req;
                       headers := headers req; body := body req |})).
Proof.
  split.
  { intros token E u Hh Hd.
    exists (proxy_call env
              {| method := method req; url := u;
                 headers := headers req; body := body req |} E).
    split; [|done]. by apply (fetches_decoded _ _ _ token). }
  split; [apply fetches_go_upstream|]. split; by intros u.
Qed.

Lemma upstream_url_is_configured_witness :
  ∃ call,
    fetches (snd (handler Scenario.env Scenario.unreachable
                    (Scenario.post "/v1/models?limit=5"
                       (Scenario.with_token Scenario.alice_token)))) = [call] ∧
    fetch_url call = js "https://gateway.ai.cloudflare.com/v1/acct/gw/workers-ai/".
Proof.
  destruct (upstream_url_is_configured Scenario.env Scenario.unreachable
              (Scenario.post "/v1/chat" (Scenario.with_token Scenario.alice_token)))
    as [Hcall _].
  apply (Hcall (js Scenario.alice_token) Scenario.alice (js "/v1/models?limit=5"));
    vm_compute; reflexivity.
Defined.

(** ** What decides acceptance *)

Lemma decode_same_second_segment token token' :
  split 46 token' !! 1%nat = split 46 token !! 1%nat →
  decode token' = decode token.
Proof. intros H. by rewrite !decode_second_segment, H. Qed.

(** A computable test that a segment holds no separator. *)
Lemma without_sep_check (sep : N) (s : jsstring) :
  forallb (λ c, negb (c =? sep)) s = true → sep ∉ s.
Proof.
  induction s as [|c s IH]; simpl; [intros _; apply not_elem_of_nil|].
  intros [Hc Hs]%andb_true_iff. apply not_elem_of_cons. split; [|by apply IH].
  intros ->. by rewrite N.eqb_refl in Hc.
Qed.

Lemma second_segment_of_join h p rest :
  46 ∉ h → 46 ∉ p → split 46 (join 46 (h :: p :: rest)) !! 1%nat = Some p.
Proof.
  intros Hh Hp.
  change (join 46 (h :: p :: rest)) with (h ++ 46 :: join 46 (p :: rest)).
  rewrite split_app by done. simpl.
  destruct rest as [|q rest].
  - simpl. by rewrite split_without_sep.
  - change (join 46 (p :: q :: rest)) with (p ++ 46 :: join 46 (q :: rest)).
    by rewrite split_app.
Qed.



(** A token with an [email] that is present but empty is answered as an
    invalid one. *)
Example empty_email_is_invalid :
  handler Scenario.env (Scenario.gateway_only Scenario.completion)
          (Scenario.post "/v1/chat" (Scenario.with_token Scenario.empty_email_token)) =
    (Json (error_object "Invalid or malformed token") 401%Z,
     [ConsoleError (js "Failed to decode token:") email_not_found]).
Proof. vm_compute. reflexivity. Qed.

(** ** Signatures *)

(** The run of the handler on a token whose third segment is not a
    signature: the request goes upstream under the identity of the
    payload. *)
Example forged_token_run :
  jwt_syntax (js Scenario.forged_token) = true ∧
  verifies Scenario.no_signature Scenario.rotating_keys (js Scenario.forged_token)
    = false ∧
  handler Scenario.env (Scenario.gateway_only Scenario.completion)
          (Scenario.post "/v1/chat" (Scenario.with_token Scenario.forged_token)) =
    (Proxied Scenario.completion,
     [Fetch (proxy_call Scenario.env
               (Scenario.post "/v1/chat" (Scenario.with_token Scenario.forged_token))
               Scenario.mallory)]).
Proof. repeat split; vm_compute; reflexivity. Qed.

(** C1, as stated, fails: the token [Scenario.forged_token] is
    syntactically valid and signed by no key of the key set, and the
    handler forwards the request and returns the upstream's 200. *)
Lemma forged_token_is_forwarded : ¬ rejects_wrong_signatures.
Proof.
  intros H.
  destruct (H bool Scenario.no_signature Scenario.rotating_keys
              Scenario.env (Scenario.gateway_only Scenario.completion)
              (Scenario.post "/v1/chat" (Scenario.with_token Scenario.forged_token))
              (js Scenario.forged_token)) as [Hstatus _];
    [vm_compute; reflexivity ..|].
  vm_compute in Hstatus. discriminate Hstatus.
Qed.

(** C1, amended: the handler checks no signature and holds no key set. A
    token is rejected exactly when its decoding throws, and then the reply
    has status 401 and nothing is sent upstream; a token that decodes is
    forwarded; and the decoding does not depend on the header segment or
    on the signature segment, which may be replaced or left out. *)
Theorem acceptance_ignores_signature (env : Bindings) (net : Network)
    (req : Request) (token : jsstring) :
  headers_get "cf-access-token" (headers req) = Some token →
  token ≠ [] →
  (∀ e, decode token = inl e →
        reply_status (fst (handler env net req)) = 401%Z ∧
        fetches (snd (handler env net req)) = [])
  ∧ (∀ E, decode token = inr E →
          fetches (snd (handler env net req)) = [proxy_call env req E])
  ∧ (∀ h h' p rest rest', 46 ∉ h → 46 ∉ h' → 46 ∉ p →
       decode (join 46 (h :: p :: rest)) = decode (join 46 (h' :: p :: rest'))).
Proof.
  intros Hh Hne. split; [|split].
  - intros e Hd. by rewrite (handler_decode_error env net req token e).
  - intros E Hd. by apply (fetches_decoded env net req token).
  - intros h h' p rest rest' Hdh Hdh' Hdp.
    apply decode_same_second_segment.
    by rewrite !second_segment_of_join.
Qed.

Lemma acceptance_ignores_signature_witness :
  decode (js Scenario.alice_token) = decode (js Scenario.alice_token').
Proof.
  apply (proj2 (proj2 (acceptance_ignores_signature Scenario.env
           (Scenario.gateway_only Scenario.completion)
           (Scenario.post "/v1/chat" (Scenario.with_token Scenario.alice_token))
           (js Scenario.alice_token)
           ltac:(vm_compute; reflexivity) ltac:(discriminate)))
         (js "eyJhbGciOiJSUzI1NiIsInR5cCI6IkpXVCJ9") (js "x")
         (js "eyJlbWFpbCI6ImFsaWNlQGV4YW1wbGUuY29tIn0") [js "c2ln"] []);
    apply without_sep_check; reflexivity.
Defined.

(** ** The replies the handler writes itself *)

(** The two 401 replies differ: the reply tells a missing token from a
    rejected one. *)
Example missing_and_invalid_differ :
  fst (handler Scenario.env Scenario.unreachable (Scenario.post "/v1/chat" ∅)) ≠
  fst (handler Scenario.env Scenario.unreachable
         (Scenario.post "/v1/chat" (Scenario.with_token Scenario.no_email_token))).
Proof. vm_compute. discriminate. Qed.

(** C4, as stated, fails: a request whose token is signed by no key of
    the key set has one of the four causes, yet it is answered with the
    upstream's 200. *)
Lemma invalid_signature_is_not_401 : ¬ auth_failures_answer_401.
Proof.
  intros H.
  pose proof (H bool Scenario.no_signature Scenario.rotating_keys
                Scenario.env (Scenario.gateway_only Scenario.completion)
                (Scenario.post "/v1/chat" (Scenario.with_token Scenario.alice_token))
                SignatureInvalid) as Hstatus.
  assert (reply_status
            (fst (handler Scenario.env (Scenario.gateway_only Scenario.completion)
                    (Scenario.post "/v1/chat"
                       (Scenario.with_token Scenario.alice_token)))) = 401%Z)
    as Hbad.
  { apply Hstatus. exists (js Scenario.alice_token).
    repeat split; vm_compute; reflexivity. }
  vm_compute in Hbad. discriminate Hbad.
Qed.

(** C4, amended: a reply that the handler writes itself is one of the three
    documented ones. The causes the handler detects are answered with
    status 401: a missing token with its own body, and every failure of
    the decoding (structure, base64, JSON, a [null] payload, an [email]
    that is absent or falsy) with one and the same reply, which does not
    tell them apart. The signature is not among the causes. *)
Theorem own_replies_are_documented (env : Bindings) (net : Network)
    (req : Request) :
  (∀ payload st,
     fst (handler env net req) = Json payload st →
     (payload, st) ∈
       [(JObject [(js "error", JString (js "Missing authentication token"))], 401%Z);
        (JObject [(js "error", JString (js "Invalid or malformed token"))], 401%Z);
        (JObject [(js "error",
                   JString (js "Failed to connect to the upstream service"))],
         502%Z)])
  ∧ (no_token (headers_get "cf-access-token" (headers req)) = true →
     fst (handler env net req) =
       Json (JObject [(js "error", JString (js "Missing authentication token"))])
            401%Z)
  ∧ (∀ token e,
       headers_get "cf-access-token" (headers req) = Some token →
       token ≠ [] →
       decode token = inl e →
       fst (handler env net req) =
         Json (JObject [(js "error", JString (js "Invalid or malformed token"))])
              401%Z)
  ∧ (∀ (Key : Type) (signed_by : Key → jsstring → bool) (keys : list Key) c,
       c ≠ SignatureInvalid →
       has_cause signed_by keys req c →
       reply_status (fst (handler env net req)) = 401%Z).
Proof.
  split; [|split; [|split]].
  - intros payload st.
    destruct (handler_cases env net req)
      as [->|[(?&?&?&?&?&->)|[(?&?&?&?&?&?&->)|(?&?&?&?&?&->)]]];
      simpl; intros [= <- <-]; set_solver.
  - intros Hno. by rewrite handler_no_token.
  - intros token e Hh Hne Hd. by rewrite (handler_decode_error env net req token e).
  - intros Key signed_by keys c Hc Hcause.
    destruct c; simpl in Hcause; [|..|].
    + by rewrite handler_no_token.
    + destruct Hcause as (t & e & Hh & Hne & Hd & _).
      by rewrite (handler_decode_error env net req t e).
    + done.
    + destruct Hcause as (t & Hh & Hd).
      assert (t ≠ []) as Hne by (intros ->; by rewrite decode_empty in Hd).
      by rewrite (handler_decode_error env net req t email_not_found).
Qed.

(** ** Key sets *)

(** C7, as stated, fails: with a key-set endpoint that fails at every
    attempt, a request is still accepted and forwarded, and the caller
    gets the upstream's 200 instead of 401. *)
Lemma keyset_outage_is_not_401 : ¬ keyset_outage_answers_401.
Proof.
  intros H.
  assert (reply_status
            (fst (handler Scenario.env (Scenario.gateway_only Scenario.completion)
                    (Scenario.post "/v1/chat"
                       (Scenario.with_token Scenario.alice_token)))) = 401%Z)
    as Hbad.
  { apply (H _ _ _ (js "acme") (js Scenario.alice_token));
      [vm_compute; reflexivity | discriminate |].
    intros call Hurl. unfold Scenario.gateway_only. rewrite Hurl.
    vm_compute. reflexivity. }
  vm_compute in Hbad. discriminate Hbad.
Qed.

(** C7, amended: the handler fetches no key set and retries nothing. What
    the network would answer at any address other than the configured
    upstream has no influence on the run; the run makes at most one call
    of [fetch], to the upstream; when that call fails the run ends at
    once with the 502 reply. *)
Theorem no_keyset_fetch_no_retry (env : Bindings) (net net' : Network)
    (req : Request) :
  (∀ call, fetch_url call = CF_AI_GATEWAY_URL env → net call = net' call) →
  handler env net req = handler env net' req
  ∧ (length (fetches (snd (handler env net req))) ≤ 1)%nat
  ∧ (∀ call, call ∈ fetches (snd (handler env net req)) →
             fetch_url call = CF_AI_GATEWAY_URL env)
  ∧ (∀ call, Fetch call ∈ snd (handler env net req) → net call = None →
             snd (handler env net req) =
               [Fetch call;
                ConsoleError (js "Failed to proxy request to AI Gateway:")
                             FetchRejection] ∧
             reply_status (fst (handler env net req)) = 502%Z).
Proof.
  intros Hagree. split; [|split; [|split]].
  - unfold handler.
    destruct (no_token _); [done|]. destruct (decode _) as [e|E]; [done|].
    by rewrite Hagree.
  - apply fetches_at_most_one.
  - apply fetches_go_upstream.
  - intros call.
    destruct (handler_cases env net req)
      as [->|[(?&?&?&?&?&->)|[(?&?&?&?&?&Hnet&->)|(?&?&?&?&?&->)]]]; simpl.
    + by intros ?%elem_of_nil.
    + intros [=]%list_elem_of_singleton.
    + intros [= ->]%list_elem_of_singleton. congruence.
    + rewrite elem_of_cons, list_elem_of_singleton.
      intros [[= ->]|[=]]. done.
Qed.

Lemma no_keyset_fetch_no_retry_witness :
  handler Scenario.env (Scenario.gateway_only Scenario.completion)
          (Scenario.post "/v1/chat" (Scenario.with_token Scenario.alice_token)) =
  handler Scenario.env (λ _, Some Scenario.completion)
          (Scenario.post "/v1/chat" (Scenario.with_token Scenario.alice_token)).
Proof.
  apply (no_keyset_fetch_no_retry Scenario.env
           (Scenario.gateway_only Scenario.completion)
           (λ _, Some Scenario.completion)
           (Scenario.post "/v1/chat" (Scenario.with_token Scenario.alice_token))).
  intros call Hurl. unfold Scenario.gateway_only. rewrite Hurl.
  vm_compute. reflexivity.
Defined.

(** * Further properties of the handler *)

(** ** Quoting and reading back a string *)

Lemma hex_value_digit n : n < 16 → hex_value (hex_digit n) = Some n.
Proof.
  intros Hn. unfold hex_digit, hex_value.
  destruct (N.ltb_spec n 10).
  - replace ((48 <=? 48 + n) && (48 + n <=? 57)) with true; [f_equal; lia|].
    symmetry. apply andb_true_iff. split; apply N.leb_le; lia.
  - replace ((48 <=? 87 + n) && (87 + n <=? 57)) with false.
    2:{ symmetry. apply andb_false_iff. right. apply N.leb_gt. lia. }
    replace ((65 <=? 87 + n) && (87 + n <=? 70)) with false.
    2:{ symmetry. apply andb_false_iff. right. apply N.leb_gt. lia. }
    replace ((97 <=? 87 + n) && (87 + n <=? 102)) with true; [f_equal; lia|].
    symmetry. apply andb_true_iff. split; apply N.leb_le; lia.
Qed.

Lemma parse_string_chars_cons c r :
  parse_string_chars (c :: r) =
    if c =? 34 then Some ([], r)
    else if c =? 92 then
      match r with
      | [] => None
      | e :: r' =>
          if e =? 117 then
            match r' with
            | a :: b :: c :: d :: r'' =>
                a ← hex_value a; b ← hex_value b;
                c ← hex_value c; d ← hex_value d;
                '(cs, rest) ← parse_string_chars r'';
                Some ((a * 4096 + b * 256 + c * 16 + d) :: cs, rest)
            | _ => None
            end
          else
            u ← unescape e;
            '(cs, rest) ← parse_string_chars r';
            Some (u :: cs, rest)
      end
    else if c <? 32 then None
    else '(cs, rest) ← parse_string_chars r; Some (c :: cs, rest).
Proof. reflexivity. Qed.

Lemma parse_unicode_escape c r :
  c < 65536 →
  parse_string_chars (unicode_escape c ++ r) =
    '(cs, rest) ← parse_string_chars r; Some (c :: cs, rest).
Proof.
  intros Hc.
  change (unicode_escape c ++ r) with
    (92 :: 117 :: hex_digit (c / 4096) :: hex_digit ((c / 256) mod 16)
        :: hex_digit ((c / 16) mod 16) :: hex_digit (c mod 16) :: r).
  rewrite parse_string_chars_cons.
  change (92 =? 34) with false. change (92 =? 92) with true.
  change (117 =? 117) with true. cbv beta iota.
  assert (c / 4096 < 16) by (apply N.Div0.div_lt_upper_bound; lia).
  assert ((c / 256) mod 16 < 16) by (apply N.mod_lt; lia).
  assert ((c / 16) mod 16 < 16) by (apply N.mod_lt; lia).
  assert (c mod 16 < 16) by (apply N.mod_lt; lia).
  rewrite !hex_value_digit by done. simpl.
  replace (c / 4096 * 4096 + (c / 256) mod 16 * 256 + (c / 16) mod 16 * 16 + c mod 16)
    with c; [done|].
  pose proof (N.div_mod c 16 ltac:(lia)).
  pose proof (N.div_mod (c / 16) 16 ltac:(lia)).
  pose proof (N.div_mod (c / 256) 16 ltac:(lia)).
  replace (c / 16 / 16) with (c / 256) in * by (rewrite N.Div0.div_div; done).
  replace (c / 256 / 16) with (c / 4096) in * by (rewrite N.Div0.div_div; done).
  lia.
Qed.

(** A character that is written as it is, or with a one-letter or [\u]
    escape, is read back as itself. *)
Lemma parse_escape_unit c r :
  c < 65536 →
  parse_string_chars (escape_unit c ++ r) =
    '(cs, rest) ← parse_string_chars r; Some (c :: cs, rest).
Proof.
  intros Hc. unfold escape_unit.
  destruct (N.eqb_spec c 8) as [->|]; [done|].
  destruct (N.eqb_spec c 9) as [->|]; [done|].
  destruct (N.eqb_spec c 10) as [->|]; [done|].
  destruct (N.eqb_spec c 12) as [->|]; [done|].
  destruct (N.eqb_spec c 13) as [->|]; [done|].
  destruct (N.eqb_spec c 34) as [->|H34]; [done|].
  destruct (N.eqb_spec c 92) as [->|H92]; [done|].
  destruct (N.ltb_spec c 32) as [Hlt|Hge]; [by apply parse_unicode_escape|].
  change ([c] ++ r) with (c :: r). rewrite parse_string_chars_cons.
  rewrite (proj2 (N.eqb_neq c 34)), (proj2 (N.eqb_neq c 92)) by done.
  by rewrite (proj2 (N.ltb_ge c 32)).
Qed.

Lemma quote_chars_cons c r :
  quote_chars (c :: r) =
    if is_high_surrogate c then
      match r with
      | d :: r' =>
          if is_low_surrogate d then c :: d :: quote_chars r'
          else unicode_escape c ++ quote_chars r
      | [] => unicode_escape c
      end
    else if is_low_surrogate c then unicode_escape c ++ quote_chars r
    else escape_unit c ++ quote_chars r.
Proof. reflexivity. Qed.

Lemma parse_quote_chars s rest :
  Forall (λ c, c < 65536) s →
  parse_string_chars (quote_chars s ++ 34 :: rest) = Some (s, rest).
Proof.
  remember (length s) as n eqn:Hn. revert s Hn.
  induction n as [n IH] using lt_wf_ind. intros s -> Hs.
  destruct s as [|c s]; [done|].
  inversion Hs as [|? ? Hc Hs']; subst. rewrite quote_chars_cons.
  assert (parse_string_chars (quote_chars s ++ 34 :: rest) = Some (s, rest)) as Hrec.
  { apply (IH (length s)); simpl; [lia|done..]. }
  destruct (is_high_surrogate c) eqn:Hhigh.
  - destruct s as [|d s].
    + by rewrite parse_unicode_escape.
    + destruct (is_low_surrogate d) eqn:Hlow.
      * change ((c :: d :: quote_chars s) ++ 34 :: rest)
          with (c :: d :: quote_chars s ++ 34 :: rest).
        unfold is_high_surrogate in Hhigh. unfold is_low_surrogate in Hlow.
        apply andb_true_iff in Hhigh as [Hc1%N.leb_le Hc2%N.leb_le].
        apply andb_true_iff in Hlow as [Hd1%N.leb_le Hd2%N.leb_le].
        inversion Hs' as [|? ? Hd Hs'']; subst.
        rewrite !parse_string_chars_cons.
        rewrite (proj2 (N.eqb_neq c 34)), (proj2 (N.eqb_neq c 92)) by lia.
        rewrite (proj2 (N.ltb_ge c 32)) by lia.
        rewrite (proj2 (N.eqb_neq d 34)), (proj2 (N.eqb_neq d 92)) by lia.
        rewrite (proj2 (N.ltb_ge d 32)) by lia.
        rewrite (IH (length s)); simpl; [done|lia|done..].
      * rewrite <- app_assoc, parse_unicode_escape by done. by rewrite Hrec.
  - destruct (is_low_surrogate c).
    + rewrite <- app_assoc, parse_unicode_escape by done. by rewrite Hrec.
    + rewrite <- app_assoc, parse_escape_unit by done. by rewrite Hrec.
Qed.

(** [JSON.parse(JSON.stringify(s))] is [s] for every string of 16-bit
    code units. *)
Lemma JSON_string_round_trip s :
  Forall (λ c, c < 65536) s →
  JSON_parse (JSON_stringify (JString s)) = Some (JString s).
Proof.
  intros Hs. apply (JSON_parse_fuel 1 _ _ []); [|done].
  change (JSON_stringify (JString s)) with (34 :: quote_chars s ++ 34 :: []).
  rewrite parse_value_S. cbn -[parse_string_chars quote_chars].
  by rewrite parse_quote_chars.
Qed.

(** ** The token header *)

Lemma no_token_iff (token : option jsstring) :
  no_token token = true ↔ token = None ∨ token = Some [].
Proof.
  destruct token as [t|]; simpl; [|by split; [left|]].
  rewrite bool_decide_eq_true. split; [intros ->; by right|].
  by intros [|[= ->]].
Qed.

(** The three bodies differ. *)
Lemma error_objects_differ :
  error_object "Missing authentication token" ≠ error_object "Invalid or malformed token"
  ∧ error_object "Missing authentication token" ≠
      error_object "Failed to connect to the upstream service"
  ∧ error_object "Invalid or malformed token" ≠
      error_object "Failed to connect to the upstream service".
Proof. repeat split; vm_compute; discriminate. Qed.

Lemma reply_missing_iff env net req :
  fst (handler env net req) = Json (error_object "Missing authentication token") 401%Z
  ↔ no_token (headers_get "cf-access-token" (headers req)) = true.
Proof.
  destruct error_objects_differ as (Hmi & Hmu & _).
  destruct (handler_cases env net req)
    as [Hrun|[(t&e&Hh&Hne&_&Hrun)|[(t&E&r&Hh&Hd&_&Hrun)|(t&E&Hh&Hd&_&Hrun)]]];
    rewrite Hrun; simpl.
  - split; [|done]. intros _.
    destruct (no_token _) eqn:Hno; [done|]. exfalso.
    unfold handler in Hrun. rewrite Hno in Hrun.
    destruct (decode _); [by inversion Hrun|].
    destruct (net _); inversion Hrun; by subst.
  - rewrite Hh. simpl. rewrite bool_decide_eq_false_2 by done.
    split; [intros [= H]; by symmetry in H|done].
  - rewrite Hh. simpl.
    rewrite bool_decide_eq_false_2 by (by apply (decode_some_nonempty _ E)).
    by split.
  - rewrite Hh. simpl.
    rewrite bool_decide_eq_false_2 by (by apply (decode_some_nonempty _ E)).
    split; [intros [= H]; by symmetry in H|done].
Qed.

(** X1: the reply is the missing-token one exactly when the header is
    absent or its value is empty; an empty value is not passed to the
    decoding, and the run has no effect. *)
Theorem empty_token_counts_as_missing (env : Bindings) (net : Network)
    (req : Request) :
  (fst (handler env net req) =
     Json (JObject [(js "error", JString (js "Missing authentication token"))])
          401%Z
   ↔ headers_get "cf-access-token" (headers req) = None
     ∨ headers_get "cf-access-token" (headers req) = Some [])
  ∧ (headers_get "cf-access-token" (headers req) = Some [] →
     handler env net req =
       (Json (JObject [(js "error", JString (js "Missing authentication token"))])
             401%Z, [])).
Proof.
  split.
  - rewrite <- no_token_iff. apply reply_missing_iff.
  - intros Hh. apply handler_no_token. by rewrite Hh.
Qed.

(** ** What the log tells *)

Lemma decode_outcome token :
  match split 46 token !! 1%nat with
  | None => decode token = inl (Error (js "Invalid JWT structure"))
  | Some seg =>
      match atob seg with
      | None => decode token = inl InvalidCharacterError
      | Some text =>
          match JSON_parse text with
          | None => decode token = inl SyntaxError
          | Some JNull => decode token = inl TypeError
          | Some (JObject props) =>
              match obj_get (js "email") props with
              | Some E =>
                  if truthy E then decode token = inr E
                  else decode token = inl email_not_found
              | None => decode token = inl email_not_found
              end
          | Some _ => decode token = inl email_not_found
          end
      end
  end.
Proof.
  rewrite decode_second_segment.
  unfold email_of, mbind, Try_bind, mret, Try_ret, or_throw, throw.
  destruct (split 46 token !! 1%nat) as [seg|]; [|reflexivity].
  destruct (atob seg) as [text|]; [|reflexivity].
  destruct (JSON_parse text) as [payload|]; [|reflexivity].
  destruct payload as [| | | | |props]; try reflexivity.
  destruct (obj_get (js "email") props) as [E|]; [|reflexivity].
  destruct (truthy E); reflexivity.
Qed.

Lemma thrown_errors_differ :
  Error (js "Invalid JWT structure") ≠ email_not_found.
Proof. vm_compute. discriminate. Qed.

#[local] Set Warnings "-clear-no-such-hyp".

Lemma decode_error_causes (token : jsstring) :
  (decode token = inl (Error (js "Invalid JWT structure")) ↔ 46 ∉ token)
  ∧ (decode token = inl InvalidCharacterError ↔
       ∃ seg, split 46 token !! 1%nat = Some seg ∧ atob seg = None)
  ∧ (decode token = inl SyntaxError ↔
       ∃ seg text, split 46 token !! 1%nat = Some seg ∧ atob seg = Some text ∧
                   JSON_parse text = None)
  ∧ (decode token = inl TypeError ↔
       ∃ seg text, split 46 token !! 1%nat = Some seg ∧ atob seg = Some text ∧
                   JSON_parse text = Some JNull)
  ∧ (decode token = inl email_not_found ↔
       ∃ seg text payload,
         split 46 token !! 1%nat = Some seg ∧ atob seg = Some text ∧
         JSON_parse text = Some payload ∧ payload ≠ JNull ∧
         ∀ props E, payload = JObject props →
                    obj_get (js "email") props = Some E → truthy E = false)
  ∧ decode token ≠ inl FetchRejection.
Proof.
  pose proof (decode_outcome token) as Hout.
  pose proof (split_has_second 46 token) as Hdot.
  pose proof thrown_errors_differ as Hdiff.
  destruct (split 46 token !! 1%nat) as [seg|] eqn:Hseg.
  2:{ assert (46 ∉ token) as Hno.
      { intros Hin. apply Hdot in Hin. by destruct Hin. }
      rewrite Hout. split_and!; [naive_solver..|done]. }
  assert (46 ∈ token) as Hyes by (apply Hdot; by eexists).
  destruct (atob seg) as [text|] eqn:Hatob;
    [|rewrite Hout; split_and!; [naive_solver..|done]].
  destruct (JSON_parse text) as [payload|] eqn:Hparse;
    [|rewrite Hout; split_and!; [naive_solver..|done]].
  destruct payload as [|b|n|s|items|props];
    try (rewrite Hout; split_and!; [naive_solver..|done]).
  destruct (obj_get (js "email") props) as [E|] eqn:Hget;
    [|rewrite Hout; split_and!; [naive_solver..|done]].
  destruct (truthy E) eqn:Htruthy; rewrite Hout; split_and!; try naive_solver.
  split; [intros [=]|].
  intros (seg' & text' & payload' & Hs & Ha & Hp & _ & Hall). simplify_eq.
  specialize (Hall props E eq_refl Hget). congruence.
Qed.

#[local] Set Warnings "+clear-no-such-hyp".

(** X2: the error that the decoding throws, and that the handler writes
    to the log, names the check that failed, though the reply is the same
    for all of them: no dot in the token, a second segment that is not
    base64, a text that is not JSON, a payload that is [null], and
    otherwise a payload without a truthy [email]. *)
Theorem logged_error_names_the_cause (token : jsstring) :
  (decode token = inl (Error (js "Invalid JWT structure")) ↔ 46 ∉ token)
  ∧ (decode token = inl InvalidCharacterError ↔
       ∃ seg, split 46 token !! 1%nat = Some seg ∧ atob seg = None)
  ∧ (decode token = inl SyntaxError ↔
       ∃ seg text, split 46 token !! 1%nat = Some seg ∧ atob seg = Some text ∧
                   JSON_parse text = None)
  ∧ (decode token = inl TypeError ↔
       ∃ seg text, split 46 token !! 1%nat = Some seg ∧ atob seg = Some text ∧
                   JSON_parse text = Some JNull)
  ∧ (decode token = inl (Error (js "Email not found in token payload")) ↔
       ∃ seg text payload,
         split 46 token !! 1%nat = Some seg ∧ atob seg = Some text ∧
         JSON_parse text = Some payload ∧ payload ≠ JNull ∧
         ∀ props E, payload = JObject props →
                    obj_get (js "email") props = Some E → truthy E = false)
  ∧ decode token ≠ inl FetchRejection
  ∧ (∀ env net req e,
       headers_get "cf-access-token" (headers req) = Some token →
       token ≠ [] →
       decode token = inl e →
       snd (handler env net req) = [ConsoleError (js "Failed to decode token:") e]).
Proof.
  destruct (decode_error_causes token) as (H1 & H2 & H3 & H4 & H5 & H6).
  split_and!; try done.
  intros env net req e Hh Hne Hd.
  by rewrite (handler_decode_error env net req token e).
Qed.

(** X3: a token whose payload segment is written in the URL-safe base64
    alphabet and uses one of its two own characters, [-] or [_], is
    answered with 401: [atob] refuses the segment, and nothing is sent
    upstream. *)
Theorem urlsafe_payload_gets_401 (env : Bindings) (net : Network)
    (req : Request) (token seg : jsstring) :
  headers_get "cf-access-token" (headers req) = Some token →
  split 46 token !! 1%nat = Some seg →
  45 ∈ seg ∨ 95 ∈ seg →
  handler env net req =
    (Json (JObject [(js "error", JString (js "Invalid or malformed token"))])
          401%Z,
     [ConsoleError (js "Failed to decode token:") InvalidCharacterError]).
Proof.
  intros Hh Hseg Hin.
  apply (handler_decode_error env net req token); [done| |].
  - intros ->. by simpl in Hseg.
  - by apply (urlsafe_payload_is_rejected token seg).
Qed.

Lemma urlsafe_payload_gets_401_witness :
  handler Scenario.env (Scenario.gateway_only Scenario.completion)
          (Scenario.post "/v1/chat" (Scenario.with_token Tokens.urlsafe_token)) =
    (Json (JObject [(js "error", JString (js "Invalid or malformed token"))])
          401%Z,
     [ConsoleError (js "Failed to decode token:") InvalidCharacterError]).
Proof.
  apply (urlsafe_payload_gets_401 Scenario.env
           (Scenario.gateway_only Scenario.completion)
           (Scenario.post "/v1/chat" (Scenario.with_token Tokens.urlsafe_token))
           (js Tokens.urlsafe_token)
           (js "eyJlbWFpbCI6ImRhbkBleGFtcGxlLmNvbSIsIm5hbWUiOiJEYW4_In0"));
    [vm_compute; reflexivity..|].
  right. apply list_elem_of_In. vm_compute. tauto.
Defined.

(** ** Effects and replies *)

(** X5: the effects of a run and its reply determine each other. Nothing
    is written or sent exactly when the token is missing; one line is
    logged and nothing is sent exactly when the token is refused; one
    call and no log line exactly when the upstream's response is passed
    on; one call followed by one log line exactly when the reply is the
    502. *)
Theorem effects_match_reply (env : Bindings) (net : Network) (req : Request) :
  (snd (handler env net req) = [] ↔
     fst (handler env net req) =
       Json (JObject [(js "error", JString (js "Missing authentication token"))])
            401%Z)
  ∧ ((∃ e, snd (handler env net req) =
             [ConsoleError (js "Failed to decode token:") e]) ↔
     fst (handler env net req) =
       Json (JObject [(js "error", JString (js "Invalid or malformed token"))])
            401%Z)
  ∧ ((∃ call, snd (handler env net req) = [Fetch call]) ↔
     ∃ r, fst (handler env net req) = Proxied r)
  ∧ ((∃ call, snd (handler env net req) =
                [Fetch call;
                 ConsoleError (js "Failed to proxy request to AI Gateway:")
                              FetchRejection]) ↔
     fst (handler env net req) =
       Json (JObject [(js "error",
                       JString (js "Failed to connect to the upstream service"))])
            502%Z).
Proof.
  destruct error_objects_differ as (Hmi & Hmu & Hiu).
  unfold error_object in *.
  destruct (handler_cases env net req)
    as [->|[(?&?&?&?&?&->)|[(?&?&?&?&?&?&->)|(?&?&?&?&?&->)]]]; simpl;
    split_and!; split; try done; try (intros (? & [=])); try (intros [=]);
    try (by eexists); try congruence.
Qed.

(** ** What the caller cannot set *)

(** X6: the headers sent upstream under the names [Authorization] and
    [cf-aig-metadata] do not depend on what the caller sent under those
    names: two requests whose headers agree elsewhere, handled for the
    same identity, send the same headers. *)
Theorem caller_cannot_set_upstream_credentials (env : Bindings)
    (req req' : Request) (userEmail : JsValue) :
  (∀ name, name ≠ "authorization" → name ≠ "cf-aig-metadata" →
           headers req !! name = headers req' !! name) →
  forwardHeaders env req userEmail = forwardHeaders env req' userEmail.
Proof.
  intros Hagree. apply map_eq. intros name. unfold forwardHeaders, headers_set.
  change (to_lower "cf-aig-metadata") with "cf-aig-metadata".
  change (to_lower "Authorization") with "authorization".
  destruct (decide (name = "cf-aig-metadata")) as [->|Hmeta].
  { by rewrite !lookup_insert_eq. }
  rewrite !(lookup_insert_ne _ "cf-aig-metadata") by done.
  destruct (decide (name = "authorization")) as [->|Hauth].
  { by rewrite !lookup_insert_eq. }
  rewrite !(lookup_insert_ne _ "authorization") by done.
  by apply Hagree.
Qed.

Lemma caller_cannot_set_upstream_credentials_witness :
  forwardHeaders Scenario.env
    (Scenario.post "/v1/chat" (Scenario.with_token Scenario.alice_token))
    Scenario.alice =
  forwardHeaders Scenario.env
    (Scenario.post "/v1/chat"
       (<["cf-aig-metadata" := js "spoofed"]>
          (<["authorization" := js "Bearer stolen"]>
             (Scenario.with_token Scenario.alice_token))))
    Scenario.alice.
Proof.
  apply (caller_cannot_set_upstream_credentials Scenario.env).
  intros name Hauth Hmeta. simpl.
  by rewrite !lookup_insert_ne.
Defined.

(** ** The code units of what is decoded *)

Lemma strings_ok_array items :
  CodeUnits.strings_ok (JArray items) ↔ Forall CodeUnits.strings_ok items.
Proof.
  simpl. induction items as [|x items IH]; [by split|].
  rewrite Forall_cons. by rewrite IH.
Qed.

Lemma strings_ok_object props :
  CodeUnits.strings_ok (JObject props) ↔ Forall (λ kv, CodeUnits.strings_ok (snd kv)) props.
Proof.
  simpl. induction props as [|kv props IH]; [by split|].
  rewrite Forall_cons. by rewrite IH.
Qed.

Lemma Forall_suffix {A} (P : A → Prop) (r s : list A) :
  r `suffix_of` s → Forall P s → Forall P r.
Proof. intros [k ->] Hs. by apply Forall_app in Hs as [_ ?]. Qed.

Lemma skip_ws_suffix s : skip_ws s `suffix_of` s.
Proof.
  induction s as [|c s IH]; simpl; [done|].
  destruct (is_json_whitespace c); [by apply suffix_cons_r|done].
Qed.

Lemma starts_with_suffix c s r : starts_with c s = Some r → r `suffix_of` s.
Proof. intros ->%starts_with_Some. by apply suffix_cons_r. Qed.

Lemma starts_with_word_suffix w s r :
  starts_with_word w s = Some r → r `suffix_of` s.
Proof.
  revert s. induction w as [|c w IH]; intros s; simpl; [by intros [= ->]|].
  destruct (starts_with c s) as [s'|] eqn:Hc; simpl; [|done].
  intros Hw%IH. apply starts_with_suffix in Hc. by etrans.
Qed.

Lemma span_digits_suffix s ds r : span_digits s = (ds, r) → r `suffix_of` s.
Proof.
  revert ds r. induction s as [|c s IH]; intros ds r; simpl.
  - by intros [= <- <-].
  - destruct (is_digit c); [|by intros [= <- <-]].
    destruct (span_digits s) as [ds' r'] eqn:Hs. intros [= <- <-].
    apply suffix_cons_r. by eapply IH.
Qed.

Lemma parse_fraction_suffix s ds r :
  parse_fraction s = Some (ds, r) → r `suffix_of` s.
Proof.
  unfold parse_fraction.
  destruct (starts_with 46 s) as [s'|] eqn:Hp; [|by intros [= <- <-]].
  destruct (span_digits s') as [ds' r'] eqn:Hs.
  destruct (bool_decide (ds' = [])); [done|]. intros [= <- <-].
  apply starts_with_suffix in Hp. apply span_digits_suffix in Hs. by etrans.
Qed.

Lemma parse_exponent_suffix s x r :
  parse_exponent s = Some (x, r) → r `suffix_of` s.
Proof.
  unfold parse_exponent. destruct s as [|c s]; [by intros [= <- <-]|].
  destruct ((c =? 101) || (c =? 69)); [|by intros [= <- <-]].
  assert (∀ r1, r1 `suffix_of` s →
            (let (ds, r2) := span_digits r1 in
             ∀ y, (if bool_decide (ds = []) then None else Some (y, r2)) = Some (x, r) →
                  r `suffix_of` c :: s)) as Hdigits.
  { intros r1 Hr1. destruct (span_digits r1) as [ds r2] eqn:Hs. intros y.
    destruct (bool_decide (ds = [])); [done|]. intros [= <- <-].
    apply span_digits_suffix in Hs. apply suffix_cons_r. by etrans. }
  destruct (starts_with 45 s) as [s'|] eqn:Hminus;
    [|destruct (starts_with 43 s) as [s'|] eqn:Hplus].
  - apply starts_with_suffix in Hminus. specialize (Hdigits s' Hminus).
    destruct (span_digits s'). apply Hdigits.
  - apply starts_with_suffix in Hplus. specialize (Hdigits s' Hplus).
    destruct (span_digits s'). apply Hdigits.
  - specialize (Hdigits s ltac:(done)). destruct (span_digits s). apply Hdigits.
Qed.

Lemma parse_number_suffix s n r : parse_number s = Some (n, r) → r `suffix_of` s.
Proof.
  unfold parse_number.
  assert (∀ s1, s1 `suffix_of` s →
            match span_digits s1 with
            | (int, s2) =>
                ∀ neg,
                (if bool_decide (int = []) then None
                 else if bool_decide (is_Some (starts_with 48 int))
                         && (1 <? length int)%nat then None
                 else '(frac, s3) ← parse_fraction s2;
                      '(ex, s4) ← parse_exponent s3;
                      Some (decimal_to_double neg (digits_value (int ++ frac))
                              (ex - Z.of_nat (length frac)), s4)) = Some (n, r) →
                r `suffix_of` s
            end) as Hrest.
  { intros s1 Hs1. destruct (span_digits s1) as [int s2] eqn:Hint. intros neg.
    destruct (bool_decide (int = [])); [done|].
    destruct (_ && _); [done|].
    destruct (parse_fraction s2) as [[frac s3]|] eqn:Hfrac; simpl; [|done].
    destruct (parse_exponent s3) as [[ex s4]|] eqn:Hex; simpl; [|done].
    intros [= <- <-]. apply span_digits_suffix in Hint.
    apply parse_fraction_suffix in Hfrac. apply parse_exponent_suffix in Hex.
    etrans; [exact Hex|]. etrans; [exact Hfrac|]. by etrans. }
  destruct (starts_with 45 s) as [s1|] eqn:Hminus.
  - apply starts_with_suffix in Hminus. specialize (Hrest s1 Hminus).
    destruct (span_digits s1). apply Hrest.
  - specialize (Hrest s ltac:(done)). destruct (span_digits s). apply Hrest.
Qed.

Lemma hex_value_bound c v : hex_value c = Some v → v < 16.
Proof.
  unfold hex_value.
  destruct ((48 <=? c) && (c <=? 57)) eqn:H1.
  { apply andb_true_iff in H1 as [?%N.leb_le ?%N.leb_le]. intros [= <-]. lia. }
  destruct ((65 <=? c) && (c <=? 70)) eqn:H2.
  { apply andb_true_iff in H2 as [?%N.leb_le ?%N.leb_le]. intros [= <-]. lia. }
  destruct ((97 <=? c) && (c <=? 102)) eqn:H3; [|done].
  apply andb_true_iff in H3 as [?%N.leb_le ?%N.leb_le]. intros [= <-]. lia.
Qed.

Lemma unescape_bound c u : unescape c = Some u → u < 65536.
Proof.
  unfold unescape.
  repeat (destruct (_ =? _); [intros [= <-]; lia|]). done.
Qed.

Lemma parse_string_chars_ok s cs r :
  Forall (λ c, c < 65536) s →
  parse_string_chars s = Some (cs, r) →
  Forall (λ c, c < 65536) cs ∧ Forall (λ c, c < 65536) r.
Proof.
  remember (length s) as n eqn:Hn. revert s cs r Hn.
  induction n as [n IH] using lt_wf_ind. intros s cs r -> Hs.
  destruct s as [|c s]; [done|]. rewrite parse_string_chars_cons.
  apply Forall_cons in Hs as [Hc Hs].
  destruct (c =? 34); [by intros [= <- <-]|].
  destruct (c =? 92).
  - destruct s as [|e s]; [done|]. apply Forall_cons in Hs as [He Hs].
    destruct (e =? 117).
    + destruct s as [|a [|b [|c' [|d s]]]]; try done.
      destruct (hex_value a) as [va|] eqn:Ha; simpl; [|done].
      destruct (hex_value b) as [vb|] eqn:Hb; simpl; [|done].
      destruct (hex_value c') as [vc|] eqn:Hc'; simpl; [|done].
      destruct (hex_value d) as [vd|] eqn:Hd; simpl; [|done].
      destruct (parse_string_chars s) as [[cs' r']|] eqn:Hrec; simpl; [|done].
      intros [= <- <-].
      apply hex_value_bound in Ha, Hb, Hc', Hd.
      do 4 apply Forall_cons in Hs as [_ Hs].
      destruct (IH (length s) ltac:(simpl; lia) s cs' r' eq_refl Hs Hrec).
      split; [|done]. apply Forall_cons. split; [lia|done].
    + destruct (unescape e) as [u|] eqn:Hu; simpl; [|done].
      destruct (parse_string_chars s) as [[cs' r']|] eqn:Hrec; simpl; [|done].
      intros [= <- <-]. apply unescape_bound in Hu.
      destruct (IH (length s) ltac:(simpl; lia) s cs' r' eq_refl Hs Hrec).
      split; [|done]. by apply Forall_cons.
  - destruct (c <? 32); [done|].
    destruct (parse_string_chars s) as [[cs' r']|] eqn:Hrec; simpl; [|done].
    intros [= <- <-].
    destruct (IH (length s) ltac:(simpl; lia) s cs' r' eq_refl Hs Hrec).
    split; [|done]. by apply Forall_cons.
Qed.

Lemma obj_insert_ok k v props :
  CodeUnits.strings_ok v →
  Forall (λ kv, CodeUnits.strings_ok (snd kv)) props →
  Forall (λ kv, CodeUnits.strings_ok (snd kv)) (obj_insert k v props).
Proof.
  intros Hv. induction props as [|[k' v'] props IH]; intros Hprops; simpl.
  - by apply Forall_singleton.
  - pose proof Hprops as [Hv' Hrest]%Forall_cons.
    destruct (array_index k), (array_index k');
      [destruct (_ <? _)%Z|..]; repeat (apply Forall_cons; split); auto.
Qed.

Lemma obj_replace_ok k v props :
  CodeUnits.strings_ok v →
  Forall (λ kv, CodeUnits.strings_ok (snd kv)) props →
  Forall (λ kv, CodeUnits.strings_ok (snd kv)) (obj_replace k v props).
Proof.
  intros Hv. induction props as [|[k' v'] props IH]; intros Hprops; simpl; [done|].
  apply Forall_cons in Hprops as [Hv' Hrest].
  destruct (bool_decide (k' = k)); apply Forall_cons; split; auto.
Qed.

Lemma obj_set_ok k v props :
  CodeUnits.strings_ok v →
  Forall (λ kv, CodeUnits.strings_ok (snd kv)) props →
  Forall (λ kv, CodeUnits.strings_ok (snd kv)) (obj_set k v props).
Proof.
  intros. unfold obj_set.
  destruct (obj_get k props); [by apply obj_replace_ok|by apply obj_insert_ok].
Qed.

Lemma obj_get_ok k v props :
  Forall (λ kv, CodeUnits.strings_ok (snd kv)) props →
  obj_get k props = Some v → CodeUnits.strings_ok v.
Proof.
  induction props as [|[k' v'] props IH]; simpl; [done|].
  intros [Hv' Hrest]%Forall_cons.
  destruct (bool_decide (k' = k)); [by intros [= <-]|auto].
Qed.

Lemma units_suffix (r s : jsstring) :
  r `suffix_of` s → Forall (λ c, c < 65536) s → Forall (λ c, c < 65536) r.
Proof. apply Forall_suffix. Qed.

Lemma units_skip_ws s :
  Forall (λ c, c < 65536) s → Forall (λ c, c < 65536) (skip_ws s).
Proof. apply units_suffix, skip_ws_suffix. Qed.

Lemma parse_units f :
  CodeUnits.parse_keeps_units (λ _ : unit, True) (λ f s _, parse_value f s) f
  ∧ CodeUnits.parse_keeps_units (Forall CodeUnits.strings_ok) parse_elements f
  ∧ CodeUnits.parse_keeps_units (Forall (λ kv, CodeUnits.strings_ok (snd kv))) parse_members f.
Proof.
  induction f as [|f (IHv & IHe & IHm)]; [by repeat split|].
  split; [|split].
  - intros s [] v r Hs _. rewrite parse_value_S.
    destruct (skip_ws s) as [|c s'] eqn:Hws; [done|].
    assert (Forall (λ c, c < 65536) (c :: s')) as Hcs.
    { rewrite <- Hws. by apply units_skip_ws. }
    pose proof Hcs as [Hc Hs']%Forall_cons.
    destruct (c =? 123) eqn:H123;
      [|destruct (c =? 91) eqn:H91;
        [|destruct (c =? 34) eqn:H34;
          [|destruct (c =? 116) eqn:H116;
            [|destruct (c =? 102) eqn:H102;
              [|destruct (c =? 110) eqn:H110]]]]].
    + destruct (starts_with 125 (skip_ws s')) as [r'|] eqn:Hclose.
      * intros [= <- <-]. split; [done|].
        apply starts_with_suffix in Hclose.
        eapply units_suffix; [exact Hclose|]. by apply units_skip_ws.
      * intros Hm. by apply (IHm _ _ _ _ Hs' (Forall_nil_2 _) Hm).
    + destruct (starts_with 93 (skip_ws s')) as [r'|] eqn:Hclose.
      * intros [= <- <-]. split; [done|].
        apply starts_with_suffix in Hclose.
        eapply units_suffix; [exact Hclose|]. by apply units_skip_ws.
      * intros He. by apply (IHe _ _ _ _ Hs' (Forall_nil_2 _) He).
    + destruct (parse_string_chars s') as [[cs r']|] eqn:Hstr; simpl; [|done].
      intros [= <- <-]. by apply (parse_string_chars_ok s').
    + destruct (starts_with_word (js "rue") s') as [r'|] eqn:Hword; simpl; [|done].
      intros [= <- <-]. split; [done|].
      apply starts_with_word_suffix in Hword. by eapply units_suffix.
    + destruct (starts_with_word (js "alse") s') as [r'|] eqn:Hword; simpl; [|done].
      intros [= <- <-]. split; [done|].
      apply starts_with_word_suffix in Hword. by eapply units_suffix.
    + destruct (starts_with_word (js "ull") s') as [r'|] eqn:Hword; simpl; [|done].
      intros [= <- <-]. split; [done|].
      apply starts_with_word_suffix in Hword. by eapply units_suffix.
    + destruct (parse_number (c :: s')) as [[n r']|] eqn:Hnum; simpl; [|done].
      intros [= <- <-]. split; [done|].
      apply parse_number_suffix in Hnum. by eapply units_suffix.
  - intros s acc v r Hs Hacc. rewrite parse_elements_S.
    destruct (parse_value f s) as [[v1 r1]|] eqn:Hv; simpl; [|done].
    destruct (IHv _ tt _ _ Hs I Hv) as [Hv1 Hr1].
    apply units_skip_ws in Hr1.
    destruct (starts_with 44 (skip_ws r1)) as [r'|] eqn:Hcomma;
      [|destruct (starts_with 93 (skip_ws r1)) as [r'|] eqn:Hclose; [|done]].
    + intros He. apply starts_with_suffix in Hcomma.
      apply (IHe _ _ _ _ (units_suffix _ _ Hcomma Hr1)
               (proj2 (Forall_cons _ _ _) (conj Hv1 Hacc)) He).
    + intros [= <- <-]. apply starts_with_suffix in Hclose. split.
      * apply strings_ok_array. change (rev (v1 :: acc)) with (rev acc ++ [v1]).
        apply Forall_app. split; [|by apply Forall_singleton].
        apply Forall_forall. intros x Hx%list_elem_of_In%in_rev%list_elem_of_In.
        by eapply Forall_forall in Hacc.
      * by eapply units_suffix.
  - intros s acc v r Hs Hacc. rewrite parse_members_S.
    destruct (starts_with 34 (skip_ws s)) as [s1|] eqn:Hquote; simpl; [|done].
    destruct (parse_string_chars s1) as [[k s2]|] eqn:Hkey; simpl; [|done].
    destruct (starts_with 58 (skip_ws s2)) as [s3|] eqn:Hcolon; simpl; [|done].
    destruct (parse_value f s3) as [[v1 r1]|] eqn:Hv; simpl; [|done].
    apply starts_with_suffix in Hquote, Hcolon.
    assert (Forall (λ c, c < 65536) s1) as Hs1.
    { eapply units_suffix; [exact Hquote|]. by apply units_skip_ws. }
    destruct (parse_string_chars_ok _ _ _ Hs1 Hkey) as [_ Hs2].
    assert (Forall (λ c, c < 65536) s3) as Hs3.
    { eapply units_suffix; [exact Hcolon|]. by apply units_skip_ws. }
    destruct (IHv _ tt _ _ Hs3 I Hv) as [Hv1 Hr1].
    apply units_skip_ws in Hr1.
    destruct (starts_with 44 (skip_ws r1)) as [r'|] eqn:Hcomma;
      [|destruct (starts_with 125 (skip_ws r1)) as [r'|] eqn:Hclose; [|done]].
    + intros Hm. apply starts_with_suffix in Hcomma.
      apply (IHm _ _ _ _ (units_suffix _ _ Hcomma Hr1)
               (obj_set_ok k _ _ Hv1 Hacc) Hm).
    + intros [= <- <-]. apply starts_with_suffix in Hclose. split.
      * apply strings_ok_object. by apply obj_set_ok.
      * by eapply units_suffix.
Qed.

Lemma JSON_parse_units text v :
  Forall (λ c, c < 65536) text → JSON_parse text = Some v → CodeUnits.strings_ok v.
Proof.
  intros Htext. unfold JSON_parse.
  destruct (parse_value _ text) as [[v' r]|] eqn:Hv; simpl; [|done].
  destruct (proj1 (parse_units _) _ tt _ _ Htext I Hv) as [Hok _].
  destruct (skip_ws r); [by intros [= <-]|done].
Qed.

(** [atob] yields a binary string. *)
Lemma base64_value_bound c v : base64_value c = Some v → v < 64.
Proof.
  unfold base64_value.
  repeat match goal with
         | |- context [if ?b then _ else _] =>
             let H := fresh in
             destruct b eqn:H;
             [try (apply andb_true_iff in H as [?%N.leb_le ?%N.leb_le]);
              intros [= <-]; lia|]
         end.
  done.
Qed.

Lemma decode_sextets_bytes l :
  Forall (λ v, v < 64) l → Forall (λ c, c < 256) (decode_sextets l).
Proof.
  remember (length l) as n eqn:Hn. revert l Hn.
  induction n as [n IH] using lt_wf_ind. intros l -> Hl.
  destruct l as [|a [|b [|c [|d rest]]]]; simpl; try done.
  - apply Forall_cons in Hl as [Ha [Hb _]%Forall_cons].
    apply Forall_singleton. apply N.Div0.div_lt_upper_bound. lia.
  - apply Forall_cons in Hl as [Ha [Hb [Hc _]%Forall_cons]%Forall_cons].
    repeat (apply Forall_cons; split); [| |done].
    + apply N.Div0.div_lt_upper_bound. lia.
    + apply N.mod_lt. lia.
  - apply Forall_cons in Hl as
        [Ha [Hb [Hc [Hd Hrest]%Forall_cons]%Forall_cons]%Forall_cons].
    repeat (apply Forall_cons; split).
    + apply N.Div0.div_lt_upper_bound. lia.
    + apply N.mod_lt. lia.
    + apply N.mod_lt. lia.
    + apply (IH (length rest)); [simpl; lia|done|done].
Qed.

Lemma atob_bytes data out : atob data = Some out → Forall (λ c, c < 256) out.
Proof.
  unfold atob. destruct (_ =? 1); [done|].
  destruct (mapM base64_value _) as [l|] eqn:Hl; simpl; [|done].
  intros [= <-]. apply decode_sextets_bytes.
  apply mapM_Some in Hl. induction Hl as [|c v ? ? Hv]; [done|].
  apply Forall_cons. split; [by eapply base64_value_bound|done].
Qed.

(** The identity the handler forwards holds 16-bit code units only. *)
Lemma decode_units token E : decode token = inr E → CodeUnits.strings_ok E.
Proof.
  pose proof (decode_outcome token) as Hout.
  destruct (split 46 token !! 1%nat) as [seg|]; [|congruence].
  destruct (atob seg) as [text|] eqn:Hatob; [|congruence].
  destruct (JSON_parse text) as [payload|] eqn:Hparse; [|congruence].
  assert (CodeUnits.strings_ok payload) as Hok.
  { apply (JSON_parse_units text); [|done].
    apply atob_bytes in Hatob. eapply Forall_impl; [exact Hatob|].
    simpl. intros. lia. }
  destruct payload as [| | | | |props]; try congruence.
  destruct (obj_get (js "email") props) as [E'|] eqn:Hget; [|congruence].
  destruct (truthy E'); [|congruence].
  intros HE. rewrite Hout in HE. injection HE as <-.
  apply strings_ok_object in Hok. by eapply obj_get_ok.
Qed.

Lemma parse_singleton_object k s :
  Forall (λ c, c < 65536) k → Forall (λ c, c < 65536) s →
  parse_value 3 (123 :: 34 :: quote_chars k ++
                 34 :: 58 :: 34 :: quote_chars s ++ 34 :: 125 :: []) =
    Some (JObject [(k, JString s)], []).
Proof.
  intros Hk Hs.
  rewrite parse_value_S. cbn -[parse_members parse_string_chars quote_chars].
  rewrite parse_members_S. cbn -[parse_value parse_string_chars quote_chars].
  rewrite parse_quote_chars by done.
  cbn -[parse_value parse_string_chars quote_chars].
  rewrite parse_value_S. cbn -[parse_string_chars quote_chars].
  by rewrite parse_quote_chars.
Qed.

Lemma metadata_parses s :
  Forall (λ c, c < 65536) s →
  JSON_parse (JSON_stringify (JObject [(js "user_id", JString s)])) =
    Some (JObject [(js "user_id", JString s)]).
Proof.
  intros Hs. apply (JSON_parse_fuel 3 _ _ []); [|done].
  change (JSON_stringify (JObject [(js "user_id", JString s)]))
    with (123 :: 34 :: quote_chars (js "user_id") ++
          34 :: 58 :: 34 :: (quote_chars s ++ [34]) ++ [125]).
  rewrite <- (assoc_L (++) (quote_chars s)).
  apply parse_singleton_object; [|done].
  by repeat (apply Forall_cons; split; [done|]).
Qed.

(** X4: the [cf-aig-metadata] header the upstream receives parses back, as
    JSON, to the object whose only property [user_id] is the email string
    of the token's payload, whatever characters that string holds. *)
Theorem metadata_names_the_email (env : Bindings) (net : Network)
    (req : Request) (token s : jsstring) :
  headers_get "cf-access-token" (headers req) = Some token →
  decode token = inr (JString s) →
  ∃ call,
    fetches (snd (handler env net req)) = [call] ∧
    headers_get "cf-aig-metadata" (fetch_headers call) ≫= JSON_parse =
      Some (JObject [(js "user_id", JString s)]).
Proof.
  intros Hh Hd. exists (proxy_call env req (JString s)).
  split; [by apply (fetches_decoded env net req token)|].
  simpl. unfold forwardHeaders. rewrite headers_get_set, normalize_object. simpl.
  apply metadata_parses. by apply (decode_units token (JString s)).
Qed.

Lemma metadata_names_the_email_witness :
  ∃ call,
    fetches (snd (handler Scenario.env Scenario.unreachable
                    (Scenario.post "/" (Scenario.with_token Tokens.escaped_token)))) =
      [call] ∧
    headers_get "cf-aig-metadata" (fetch_headers call) ≫= JSON_parse =
      Some (JObject [(js "user_id", JString (js "o" ++ 34 :: js "hara" ++ 10 :: js "@example.com"))]).
Proof.
  apply (metadata_names_the_email Scenario.env Scenario.unreachable
           (Scenario.post "/" (Scenario.with_token Tokens.escaped_token))
           (js Tokens.escaped_token)); by vm_compute.
Defined.

(** * Properties of the key-set variant listed in the README *)

Lemma awaited_app t1 t2 :
  Listing.awaited (t1 ++ t2) = Listing.awaited t1 ++ Listing.awaited t2.
Proof. apply omap_app. Qed.

Lemma fetched_app t1 t2 :
  Listing.fetched (t1 ++ t2) = Listing.fetched t1 ++ Listing.fetched t2.
Proof. apply omap_app. Qed.

Lemma take_drop_step {A} (l : list A) (a k : nat) :
  match l !! a with Some d => [d] | None => [] end ++ take k (drop (S a) l) =
    take (S k) (drop a l).
Proof.
  destruct (l !! a) as [d|] eqn:Hd.
  - by rewrite (drop_S l d a Hd).
  - apply lookup_ge_None in Hd. rewrite !drop_ge by lia. by destruct k.
Qed.

(** ** [withRetry] *)

Lemma attempts_awaited {T} (fn : Listing.State → Try T * Listing.State)
    (delays : list N) :
  (∀ st, Listing.awaited (Listing.trace (fn st).2) =
         Listing.awaited (Listing.trace st)) →
  ∀ left attempt lastError st,
    ∃ k, (k ≤ left)%nat ∧
      Listing.awaited
        (Listing.trace (Listing.attempts fn delays left attempt lastError st).2) =
        Listing.awaited (Listing.trace st) ++ take k (drop attempt delays) ∧
      ∀ e, (Listing.attempts fn delays left attempt lastError st).1 = inl e →
           k = left ∧ (e = None → lastError = None ∧ left = 0%nat).
Proof.
  intros Hfn left. induction left as [|left IH]; intros attempt lastError st.
  - exists 0%nat. simpl. rewrite app_nil_r. split; [done|]. split; [done|].
    by intros e [= <-].
  - simpl. pose proof (Hfn st) as Hst. destruct (fn st) as [[error|v] st1].
    + simpl in Hst.
      set (st2 := match delays !! attempt with
                  | Some delay => _
                  | None => st1
                  end).
      assert (Listing.awaited (Listing.trace st2) =
              Listing.awaited (Listing.trace st) ++
              match delays !! attempt with Some d => [d] | None => [] end) as Hst2.
      { subst st2. destruct (delays !! attempt); simpl.
        - by rewrite awaited_app, Hst.
        - by rewrite app_nil_r. }
      destruct (IH (S attempt) (Some error) st2) as (k & Hk & Hawaited & Herr).
      exists (S k). split; [lia|]. split.
      * by rewrite Hawaited, Hst2, <- (assoc_L (++)), take_drop_step.
      * intros e He. destruct (Herr e He) as [-> Hnone]. split; [done|].
        intros ->. by destruct Hnone.
    + exists 0%nat. simpl in *. rewrite app_nil_r. split; [lia|]. by split.
Qed.

(** X7: when the function given to [withRetry] awaits no timer itself, the
    delays awaited by a call are the first ones of the list, in order and
    each once; a call that throws has awaited all of them, and what it
    throws is an error, never the unassigned [lastError]. *)
Theorem retries_await_the_delays_in_order {T}
    (fn : Listing.State → Try T * Listing.State) (delays : list N)
    (st : Listing.State) :
  (∀ st, Listing.awaited (Listing.trace (fn st).2) =
         Listing.awaited (Listing.trace st)) →
  (∃ k, (k ≤ length delays)%nat ∧
        Listing.awaited (Listing.trace (Listing.withRetry fn delays st).2) =
          Listing.awaited (Listing.trace st) ++ take k delays)
  ∧ (∀ e, (Listing.withRetry fn delays st).1 = inl e →
          e ≠ None ∧
          Listing.awaited (Listing.trace (Listing.withRetry fn delays st).2) =
            Listing.awaited (Listing.trace st) ++ delays).
Proof.
  intros Hfn. unfold Listing.withRetry.
  destruct (attempts_awaited fn delays Hfn (length delays + 1) 0 None st)
    as (k & Hk & Hawaited & Herr).
  rewrite drop_0 in Hawaited. split.
  - exists (k `min` length delays)%nat. split; [lia|]. rewrite Hawaited. f_equal.
    destruct (decide (k ≤ length delays)%nat).
    + by rewrite Nat.min_l.
    + rewrite Nat.min_r by lia. by rewrite !take_ge by lia.
  - intros e He. destruct (Herr e He) as [-> Hnone]. split.
    + intros ->. destruct Hnone as [_ ?]; [done|lia].
    + rewrite Hawaited. by rewrite take_ge by lia.
Qed.

Lemma fetch_keys_eq net teamName st :
  Listing.fetch_keys net teamName st =
    (or_throw FetchRejection
       (net (Listing.trace st) (Listing.get (Listing.certsUri teamName)))
       ≫= Listing.keys_in,
     Listing.emit [Listing.Did (Fetch (Listing.get (Listing.certsUri teamName)))] st).
Proof. reflexivity. Qed.

Lemma fetch_keys_awaits_nothing net teamName st :
  Listing.awaited (Listing.trace (Listing.fetch_keys net teamName st).2) =
    Listing.awaited (Listing.trace st).
Proof. rewrite fetch_keys_eq. simpl. rewrite awaited_app. apply app_nil_r. Qed.

Lemma retries_await_the_delays_in_order_witness :
  (∃ k, (k ≤ 2)%nat ∧
        Listing.awaited
          (Listing.trace
             (Listing.withRetry (Listing.fetch_keys (Listing.flaky 1) Listing.team)
                [5000; 10000] Listing.start).2) =
          Listing.awaited (Listing.trace Listing.start) ++ take k [5000; 10000])
  ∧ (∀ e, (Listing.withRetry (Listing.fetch_keys (Listing.flaky 1) Listing.team)
             [5000; 10000] Listing.start).1 = inl e →
          e ≠ None ∧
          Listing.awaited
            (Listing.trace
               (Listing.withRetry (Listing.fetch_keys (Listing.flaky 1) Listing.team)
                  [5000; 10000] Listing.start).2) =
            Listing.awaited (Listing.trace Listing.start) ++ [5000; 10000]).
Proof.
  apply (retries_await_the_delays_in_order
           (Listing.fetch_keys (Listing.flaky 1) Listing.team) [5000; 10000]
           Listing.start).
  intros st. apply fetch_keys_awaits_nothing.
Defined.

(** ** [getPublicKeys] *)

Lemma attempts_S {T} (fn : Listing.State → Try T * Listing.State) delays
    left attempt lastError st :
  Listing.attempts fn delays (S left) attempt lastError st =
    match fn st with
    | (inr v, st1) => (inr v, st1)
    | (inl error, st1) =>
        Listing.attempts fn delays left (S attempt) (Some error)
          match delays !! attempt with
          | Some delay =>
              Listing.emit [Listing.ConsoleLog (Listing.retry_text attempt delay) error;
                            Listing.SetTimeout delay] st1
          | None => st1
          end
    end.
Proof. reflexivity. Qed.

Lemma retry_step net teamName delays left attempt lastError st :
  Listing.attempts (Listing.fetch_keys net teamName) delays (S left) attempt
    lastError st =
    match or_throw FetchRejection
            (net (Listing.trace st) (Listing.get (Listing.certsUri teamName)))
            ≫= Listing.keys_in with
    | inr keys =>
        (inr keys,
         Listing.emit [Listing.Did (Fetch (Listing.get (Listing.certsUri teamName)))]
           st)
    | inl e =>
        Listing.attempts (Listing.fetch_keys net teamName) delays left (S attempt)
          (Some e)
          (Listing.emit
             (Listing.Did (Fetch (Listing.get (Listing.certsUri teamName))) ::
              match delays !! attempt with
              | Some delay =>
                  [Listing.ConsoleLog (Listing.retry_text attempt delay) e;
                   Listing.SetTimeout delay]
              | None => []
              end) st)
    end.
Proof.
  rewrite attempts_S, fetch_keys_eq.
  destruct (or_throw _ _ ≫= _) as [e|keys]; [|done].
  f_equal. unfold Listing.emit. simpl.
  destruct (delays !! attempt); simpl; [|done]. by rewrite <- (assoc_L (++)).
Qed.

(** X8: a call of [getPublicKeys] that finds no usable entry in the cache
    makes one, two or three calls of [fetch], all to the key-set endpoint
    of the team, waits 5000 ms after the first failure and 10000 ms after
    the second, and logs each of the two. When an attempt yields keys, the
    keys are returned and stored with an expiration one hour after the
    time read at the start of the call; when the third attempt fails too,
    its error is thrown at once and the cache is left as it was. *)
Theorem key_fetch_schedule (net : list Listing.Effect → Network) (now : Z)
    (teamName : jsstring) (st : Listing.State) :
  Listing.keys_usable st now = false →
  let F := Listing.Did (Fetch (Listing.get (Listing.certsUri teamName))) in
  let first e := [F; Listing.ConsoleLog (js "Attempt 1 failed, retrying in 5000ms:") e;
                  Listing.SetTimeout 5000] in
  let second e := [F; Listing.ConsoleLog (js "Attempt 2 failed, retrying in 10000ms:") e;
                   Listing.SetTimeout 10000] in
  let answer t :=
    or_throw FetchRejection (net t (Listing.get (Listing.certsUri teamName)))
      ≫= Listing.keys_in in
  let r := Listing.getPublicKeys net now teamName st in
  (∃ keys t,
     r.1 = inr keys ∧ answer t = inr keys ∧
     Listing.cache r.2 =
       {| Listing.cachedKeys := keys;
          Listing.cacheExpiration := now + 3600000 |} ∧
     Listing.trace r.2 = t ++ [F] ∧
     (t = Listing.trace st
      ∨ (∃ e1, answer (Listing.trace st) = inl e1 ∧
               t = Listing.trace st ++ first e1)
      ∨ (∃ e1 e2, answer (Listing.trace st) = inl e1 ∧
                  answer (Listing.trace st ++ first e1) = inl e2 ∧
                  t = Listing.trace st ++ first e1 ++ second e2)))
  ∨ (∃ e1 e2 e3,
       answer (Listing.trace st) = inl e1 ∧
       answer (Listing.trace st ++ first e1) = inl e2 ∧
       answer (Listing.trace st ++ first e1 ++ second e2) = inl e3 ∧
       r.1 = inl (Some e3) ∧
       Listing.cache r.2 = Listing.cache st ∧
       Listing.trace r.2 = Listing.trace st ++ first e1 ++ second e2 ++ [F]).
Proof.
  intros Hmiss F first second answer r. subst r.
  unfold Listing.getPublicKeys. rewrite Hmiss. unfold Listing.withRetry.
  change (length _ + 1)%nat with 3%nat.
  rewrite retry_step. change (or_throw _ _ ≫= _) with (answer (Listing.trace st)).
  destruct (answer (Listing.trace st)) as [e1|keys] eqn:H1.
  2:{ left. exists keys, (Listing.trace st). simpl. by auto 10. }
  change (Listing.emit _ st) with (Listing.emit (first e1) st).
  rewrite retry_step.
  change (or_throw _ _ ≫= _) with (answer (Listing.trace st ++ first e1)).
  destruct (answer (Listing.trace st ++ first e1)) as [e2|keys] eqn:H2.
  2:{ left. exists keys, (Listing.trace st ++ first e1). simpl.
      split_and!; [done..|]. right. left. by exists e1. }
  change (Listing.emit _ (Listing.emit _ st))
    with (Listing.emit (second e2) (Listing.emit (first e1) st)).
  rewrite retry_step.
  change (or_throw _ _ ≫= _)
    with (answer ((Listing.trace st ++ first e1) ++ second e2)).
  rewrite <- (assoc_L (++)).
  destruct (answer (Listing.trace st ++ first e1 ++ second e2)) as [e3|keys] eqn:H3.
  2:{ left. exists keys, (Listing.trace st ++ first e1 ++ second e2). simpl.
      split_and!; [done..|by rewrite <- !(assoc_L (++))|].
      right. right. by exists e1, e2. }
  right. exists e1, e2, e3. simpl. split_and!; [done..|].
  by rewrite <- !(assoc_L (++)).
Qed.

Lemma key_fetch_schedule_witness :
  Listing.keys_usable Listing.start 1000 = false ∧
  (
  let F := Listing.Did (Fetch (Listing.get (Listing.certsUri Listing.team))) in
  let first e := [F; Listing.ConsoleLog (js "Attempt 1 failed, retrying in 5000ms:") e;
                  Listing.SetTimeout 5000] in
  let second e := [F; Listing.ConsoleLog (js "Attempt 2 failed, retrying in 10000ms:") e;
                   Listing.SetTimeout 10000] in
  let answer t :=
    or_throw FetchRejection (Listing.flaky 1 t (Listing.get (Listing.certsUri Listing.team)))
      ≫= Listing.keys_in in
  let r := Listing.getPublicKeys (Listing.flaky 1) 1000 Listing.team Listing.start in
  (∃ keys t,
     r.1 = inr keys ∧ answer t = inr keys ∧
     Listing.cache r.2 =
       {| Listing.cachedKeys := keys;
          Listing.cacheExpiration := 1000 + 3600000 |} ∧
     Listing.trace r.2 = t ++ [F] ∧
     (t = Listing.trace Listing.start
      ∨ (∃ e1, answer (Listing.trace Listing.start) = inl e1 ∧
               t = Listing.trace Listing.start ++ first e1)
      ∨ (∃ e1 e2, answer (Listing.trace Listing.start) = inl e1 ∧
                  answer (Listing.trace Listing.start ++ first e1) = inl e2 ∧
                  t = Listing.trace Listing.start ++ first e1 ++ second e2)))
  ∨ (∃ e1 e2 e3,
       answer (Listing.trace Listing.start) = inl e1 ∧
       answer (Listing.trace Listing.start ++ first e1) = inl e2 ∧
       answer (Listing.trace Listing.start ++ first e1 ++ second e2) = inl e3 ∧
       r.1 = inl (Some e3) ∧
       Listing.cache r.2 = Listing.cache Listing.start ∧
       Listing.trace r.2 = Listing.trace Listing.start ++ first e1 ++ second e2 ++ [F])).
Proof.
  split; [reflexivity|].
  apply (key_fetch_schedule (Listing.flaky 1) 1000 Listing.team Listing.start).
  reflexivity.
Defined.

(** What a call that misses the cache does to the state, attempt by
    attempt: the trace grows by calls to the endpoint, log lines and
    timers; only a success touches the cache. *)
Lemma getPublicKeys_miss net now teamName st :
  Listing.keys_usable st now = false →
  ∃ more,
    Listing.trace (Listing.getPublicKeys net now teamName st).2 =
      Listing.trace st ++
      Listing.Did (Fetch (Listing.get (Listing.certsUri teamName))) :: more ∧
    Listing.fetched more =
      replicate (length (Listing.fetched more))
        (Listing.get (Listing.certsUri teamName)) ∧
    (length (Listing.fetched more) ≤ 2)%nat ∧
    (Listing.awaited more = [] ∨ Listing.awaited more = [5000]
     ∨ Listing.awaited more = [5000; 10000]) ∧
    match (Listing.getPublicKeys net now teamName st).1 with
    | inr keys =>
        Listing.cache (Listing.getPublicKeys net now teamName st).2 =
          {| Listing.cachedKeys := keys;
             Listing.cacheExpiration := now + 3600000 |}
    | inl e =>
        e ≠ None ∧
        Listing.cache (Listing.getPublicKeys net now teamName st).2 =
          Listing.cache st ∧
        length (Listing.fetched more) = 2%nat ∧
        Listing.awaited more = [5000; 10000]
    end.
Proof.
  intros Hmiss. unfold Listing.getPublicKeys. rewrite Hmiss.
  unfold Listing.withRetry. change (length _ + 1)%nat with 3%nat.
  rewrite retry_step. destruct (or_throw _ _ ≫= _) as [e1|keys].
  2:{ exists []. simpl. by auto 10. }
  rewrite retry_step. destruct (or_throw _ _ ≫= _) as [e2|keys].
  2:{ eexists. simpl. rewrite <- !(assoc_L (++)). simpl.
      split; [reflexivity|]. simpl. by auto 10. }
  rewrite retry_step. destruct (or_throw _ _ ≫= _) as [e3|keys].
  2:{ eexists. simpl. rewrite <- !(assoc_L (++)). simpl.
      split; [reflexivity|]. simpl. by auto 10. }
  eexists. simpl. rewrite <- !(assoc_L (++)). simpl.
  split; [reflexivity|]. simpl. by auto 10.
Qed.

Lemma getPublicKeys_hit net now teamName st :
  Listing.keys_usable st now = true →
  Listing.getPublicKeys net now teamName st =
    (inr (Listing.cachedKeys (Listing.cache st)), st).
Proof. intros Hhit. unfold Listing.getPublicKeys. by rewrite Hhit. Qed.

(** X9: after a call of [getPublicKeys] that had to fetch the keys at time
    [now], every call made before [now + 3600000] returns those keys
    without touching the network or the state, whatever team it names,
    provided the keys are truthy; from that time on, or when what was
    stored is falsy (a document without [keys]), the next call fetches
    again. *)
Theorem keys_are_reused_for_an_hour
    (net net' : list Listing.Effect → Network) (now now' : Z)
    (teamName teamName' : jsstring) (st st1 st' : Listing.State)
    (keys : Listing.Keys) :
  Listing.keys_usable st now = false →
  Listing.getPublicKeys net now teamName st = (inr keys, st1) →
  Listing.cache st' = Listing.cache st1 →
  (Listing.keys_truthy keys = true → (now' < now + 3600000)%Z →
   Listing.getPublicKeys net' now' teamName' st' = (inr keys, st'))
  ∧ (Listing.keys_truthy keys = false ∨ (now + 3600000 ≤ now')%Z →
     ∃ more,
       Listing.trace (Listing.getPublicKeys net' now' teamName' st').2 =
         Listing.trace st' ++
         Listing.Did (Fetch (Listing.get (Listing.certsUri teamName'))) :: more).
Proof.
  intros Hmiss Hcall Hcache.
  destruct (getPublicKeys_miss net now teamName st Hmiss) as (more0 & _ & _ & _ & _ & Hst1).
  rewrite Hcall in Hst1. simpl in Hst1.
  assert (Listing.keys_usable st' now' =
          Listing.keys_truthy keys && (now' <? now + 3600000)%Z) as Husable.
  { unfold Listing.keys_usable. by rewrite Hcache, Hst1. }
  split.
  - intros Htruthy Hnow. rewrite getPublicKeys_hit.
    + by rewrite Hcache, Hst1.
    + rewrite Husable, Htruthy. simpl. by apply Z.ltb_lt.
  - intros Hstale.
    destruct (getPublicKeys_miss net' now' teamName' st') as (more & Hmore & _).
    + rewrite Husable. apply andb_false_iff.
      destruct Hstale as [Hfalsy|Hlate]; [by left|]. right. by apply Z.ltb_ge.
    + by exists more.
Qed.

Lemma keys_are_reused_for_an_hour_witness :
  (Listing.getPublicKeys (Listing.flaky 3) 3600999 (js "other")
     {| Listing.cache :=
          Listing.cache
            (Listing.getPublicKeys (Listing.flaky 2) 1000 Listing.team
               Listing.start).2;
        Listing.trace := [] |}).2 =
    {| Listing.cache :=
         {| Listing.cachedKeys := Listing.Parsed Listing.key_set;
            Listing.cacheExpiration := 3601000 |};
       Listing.trace := [] |}.
Proof.
  set (st' := {| Listing.cache := _; Listing.trace := [] |}).
  destruct (keys_are_reused_for_an_hour (Listing.flaky 2) (Listing.flaky 3)
              1000 3600999 Listing.team (js "other") Listing.start
              (Listing.getPublicKeys (Listing.flaky 2) 1000 Listing.team
                 Listing.start).2
              st' (Listing.Parsed Listing.key_set)) as [Hreuse _];
    [reflexivity|by vm_compute|reflexivity|].
  rewrite Hreuse; [by vm_compute|reflexivity|reflexivity].
Defined.

(** ** The handler of the listing *)

Lemma listing_handler_with_token net verifyWithJwks env now req st token :
  headers_get "cf-access-token" (headers req) = Some token →
  token ≠ [] →
  Listing.handler net verifyWithJwks env now req st =
    match Listing.getPublicKeys net now (Listing.CF_ACCESS_TEAM_NAME env) st with
    | (inl e, st1) => Listing.reject e st1
    | (inr keys, st1) =>
        match verifyWithJwks token keys with
        | inl e => Listing.reject (Some e) st1
        | inr payload =>
            match email_of payload with
            | inl e => (inl e, st1)
            | inr None => (inr Listing.email_missing, st1)
            | inr (Some userEmail) =>
                if truthy userEmail then Listing.forward net env req userEmail st1
                else (inr Listing.email_missing, st1)
            end
        end
    end.
Proof.
  intros Hh Hne. unfold Listing.handler. rewrite Hh. simpl.
  by rewrite bool_decide_eq_false_2.
Qed.

Lemma listing_handler_without_token net verifyWithJwks env now req st :
  no_token (headers_get "cf-access-token" (headers req)) = true →
  Listing.handler net verifyWithJwks env now req st =
    (inr (Json (error_object "Missing authentication token") 401%Z), st).
Proof. intros Hno. unfold Listing.handler. by rewrite Hno. Qed.

(** X10: when the key-set endpoint gives no successful answer and the
    cache holds no usable keys, a request with a token is answered with
    401 and the body of an invalid token, after three calls to the
    endpoint and waits of 5000 ms and 10000 ms; the verifier is not asked,
    nothing is sent upstream, the cache is left as it was, and the last
    effect is the log line of the failure. *)
Theorem keyset_outage_ends_in_401 (net : list Listing.Effect → Network)
    (verifyWithJwks : jsstring → Listing.Keys → Try JsValue)
    (env : Listing.Bindings) (now : Z) (req : Request) (st : Listing.State)
    (token : jsstring) :
  headers_get "cf-access-token" (headers req) = Some token →
  token ≠ [] →
  Listing.keys_usable st now = false →
  (∀ t r, net t (Listing.get (Listing.certsUri (Listing.CF_ACCESS_TEAM_NAME env)))
          = Some r → Listing.ok r = false) →
  ∃ more e,
    Listing.handler net verifyWithJwks env now req st =
      (inr (Json (JObject [(js "error", JString (js "Invalid or malformed token"))])
                 401%Z),
       {| Listing.cache := Listing.cache st;
          Listing.trace :=
            Listing.trace st ++ more ++
            [Listing.Did (ConsoleError (js "JWT verification failed:") e)] |}) ∧
    Listing.fetched more =
      replicate 3 (Listing.get (Listing.certsUri (Listing.CF_ACCESS_TEAM_NAME env))) ∧
    Listing.awaited more = [5000; 10000].
Proof.
  intros Hh Hne Hmiss Hdown.
  assert (∀ t, ∃ e,
            or_throw FetchRejection
              (net t (Listing.get (Listing.certsUri (Listing.CF_ACCESS_TEAM_NAME env))))
              ≫= Listing.keys_in = inl e) as Hfail.
  { intros t. specialize (Hdown t).
    destruct (net t _) as [r|]; simpl; [|by eexists].
    unfold Listing.keys_in. rewrite (Hdown r eq_refl). by eexists. }
  rewrite (listing_handler_with_token _ _ _ _ _ _ token Hh Hne).
  unfold Listing.getPublicKeys. rewrite Hmiss. unfold Listing.withRetry.
  change (length _ + 1)%nat with 3%nat.
  rewrite retry_step. destruct (Hfail (Listing.trace st)) as [e1 ->].
  rewrite retry_step.
  match goal with |- context [net ?t _] => destruct (Hfail t) as [e2 ->] end.
  rewrite retry_step.
  match goal with |- context [net ?t _] => destruct (Hfail t) as [e3 ->] end.
  set (F := Listing.Did
              (Fetch (Listing.get (Listing.certsUri (Listing.CF_ACCESS_TEAM_NAME env))))).
  exists [F; Listing.ConsoleLog (Listing.retry_text 0 5000) e1; Listing.SetTimeout 5000;
          F; Listing.ConsoleLog (Listing.retry_text 1 10000) e2;
          Listing.SetTimeout 10000; F], e3.
  split; [|by split]. simpl. unfold Listing.reject, Listing.emit. simpl.
  by rewrite <- !(assoc_L (++)).
Qed.

Lemma keyset_outage_ends_in_401_witness :
  ∃ more e,
    Listing.handler Listing.down Listing.accepts_alice Listing.env 1000
      (Scenario.post "/" (Scenario.with_token Scenario.alice_token)) Listing.start =
      (inr (Json (JObject [(js "error", JString (js "Invalid or malformed token"))])
                 401%Z),
       {| Listing.cache := Listing.cache Listing.start;
          Listing.trace :=
            Listing.trace Listing.start ++ more ++
            [Listing.Did (ConsoleError (js "JWT verification failed:") e)] |}) ∧
    Listing.fetched more =
      replicate 3 (Listing.get (Listing.certsUri (Listing.CF_ACCESS_TEAM_NAME Listing.env))) ∧
    Listing.awaited more = [5000; 10000].
Proof.
  apply (keyset_outage_ends_in_401 Listing.down Listing.accepts_alice Listing.env
           1000 (Scenario.post "/" (Scenario.with_token Scenario.alice_token))
           Listing.start (js Scenario.alice_token)).
  - reflexivity.
  - discriminate.
  - reflexivity.
  - intros t r. vm_compute. by intros [= <-].
Defined.

(** X11: the upstream's response is the reply exactly when there is a
    token, [getPublicKeys] returned keys, [Jwt.verifyWithJwks] accepted the
    token under those keys, the payload it returned has a truthy [email],
    and the call to the upstream was answered; and a token that the
    verifier refuses is answered with 401, the log line of the failure
    being the only effect after the keys were got. *)
Theorem upstream_answer_needs_verification
    (net : list Listing.Effect → Network)
    (verifyWithJwks : jsstring → Listing.Keys → Try JsValue)
    (env : Listing.Bindings) (now : Z) (req : Request) (st : Listing.State) :
  (∀ resp,
     (Listing.handler net verifyWithJwks env now req st).1 = inr (Proxied resp) ↔
     ∃ token keys st1 payload E,
       headers_get "cf-access-token" (headers req) = Some token ∧ token ≠ [] ∧
       Listing.getPublicKeys net now (Listing.CF_ACCESS_TEAM_NAME env) st =
         (inr keys, st1) ∧
       verifyWithJwks token keys = inr payload ∧
       email_of payload = inr (Some E) ∧ truthy E = true ∧
       net (Listing.trace st1) (proxy_call (Listing.gateway env) req E) = Some resp)
  ∧ (∀ token keys st1 e,
       headers_get "cf-access-token" (headers req) = Some token → token ≠ [] →
       Listing.getPublicKeys net now (Listing.CF_ACCESS_TEAM_NAME env) st =
         (inr keys, st1) →
       verifyWithJwks token keys = inl e →
       Listing.handler net verifyWithJwks env now req st =
         (inr (Json (JObject [(js "error", JString (js "Invalid or malformed token"))])
                    401%Z),
          Listing.emit
            [Listing.Did (ConsoleError (js "JWT verification failed:") e)] st1)).
Proof.
  split.
  - intros resp.
    destruct (no_token (headers_get "cf-access-token" (headers req))) eqn:Hno.
    { rewrite listing_handler_without_token by done. simpl. split; [done|].
      intros (token & ? & ? & ? & ? & Hh & Hne & _). rewrite Hh in Hno.
      simpl in Hno. by apply bool_decide_eq_true in Hno. }
    destruct (headers_get "cf-access-token" (headers req)) as [token|] eqn:Hh;
      [|done].
    simpl in Hno. apply bool_decide_eq_false in Hno.
    rewrite (listing_handler_with_token _ _ _ _ _ _ token Hh Hno).
    destruct (Listing.getPublicKeys _ _ _ _) as [[e|keys] st1] eqn:Hkeys.
    { simpl. split; [done|]. by intros (? & ? & ? & ? & ? & [= <-] & _ & [=] & _). }
    destruct (verifyWithJwks token keys) as [e|payload] eqn:Hverify.
    { simpl. split; [done|].
      intros (? & ? & ? & ? & ? & [= <-] & _ & [= <- <-] & ? & _). congruence. }
    destruct (email_of payload) as [e|[E|]] eqn:Hemail.
    { simpl. split; [done|].
      intros (? & ? & ? & ? & ? & [= <-] & _ & [= <- <-] & ? & ? & _). congruence. }
    2:{ simpl. split; [done|].
        intros (? & ? & ? & ? & ? & [= <-] & _ & [= <- <-] & ? & ? & _). congruence. }
    destruct (truthy E) eqn:Htruthy.
    2:{ simpl. split; [done|].
        intros (? & ? & ? & ? & E' & [= <-] & _ & [= <- <-] & ? & ? & ? & _).
        congruence. }
    unfold Listing.forward, Listing.fetch.
    destruct (net (Listing.trace st1) _) as [r|] eqn:Hnet; simpl.
    + split.
      * intros [= <-]. by exists token, keys, st1, payload, E.
      * intros (? & ? & ? & ? & E' & [= <-] & _ & [= <- <-] & ? & ? & ? & Hnet').
        congruence.
    + split; [done|].
      intros (? & ? & ? & ? & E' & [= <-] & _ & [= <- <-] & ? & ? & ? & Hnet').
      congruence.
  - intros token keys st1 e Hh Hne Hkeys Hverify.
    rewrite (listing_handler_with_token _ _ _ _ _ _ token Hh Hne), Hkeys.
    by rewrite Hverify.
Qed.

Lemma decode_truthy token E : decode token = inr E → truthy E = true.
Proof.
  pose proof (decode_outcome token) as Hout.
  destruct (split 46 token !! 1%nat) as [seg|]; [|congruence].
  destruct (atob seg) as [text|]; [|congruence].
  destruct (JSON_parse text) as [payload|]; [|congruence].
  destruct payload as [| | | | |props]; try congruence.
  destruct (obj_get (js "email") props) as [E'|]; [|congruence].
  destruct (truthy E') eqn:Htruthy; congruence.
Qed.

(** X12: a token that the verifier accepts but whose payload has no truthy
    [email] gets a reply of its own, 401 with the body
    [Email not found in token payload], without a log line and without a
    call to the upstream; the handler of [index.ts] never writes this
    reply. *)
Theorem missing_email_has_its_own_reply (net : list Listing.Effect → Network)
    (verifyWithJwks : jsstring → Listing.Keys → Try JsValue)
    (env : Listing.Bindings) (now : Z) (req : Request) (st st1 : Listing.State)
    (token : jsstring) (keys : Listing.Keys) (payload : JsValue) :
  headers_get "cf-access-token" (headers req) = Some token →
  token ≠ [] →
  Listing.getPublicKeys net now (Listing.CF_ACCESS_TEAM_NAME env) st =
    (inr keys, st1) →
  verifyWithJwks token keys = inr payload →
  (email_of payload = inr None
   ∨ ∃ E, email_of payload = inr (Some E) ∧ truthy E = false) →
  Listing.handler net verifyWithJwks env now req st =
    (inr (Json (JObject [(js "error",
                          JString (js "Email not found in token payload"))])
               401%Z),
     st1)
  ∧ ∀ env' net' req',
      (handler env' net' req').1 ≠
        Json (JObject [(js "error",
                        JString (js "Email not found in token payload"))])
             401%Z.
Proof.
  intros Hh Hne Hkeys Hverify Hemail. split.
  - rewrite (listing_handler_with_token _ _ _ _ _ _ token Hh Hne), Hkeys, Hverify.
    destruct Hemail as [->|(E & -> & ->)]; done.
  - intros env' net' req'.
    destruct (handler_cases env' net' req')
      as [->|[(? & ? & _ & _ & _ & ->)|[(? & ? & ? & _ & _ & _ & ->)
                                        |(? & ? & _ & _ & _ & ->)]]];
      by simpl.
Qed.

Lemma missing_email_has_its_own_reply_witness :
  Listing.handler (Listing.flaky 0) (λ _ _, inr (JObject [(js "sub", JString (js "x"))]))
    Listing.env 1000
    (Scenario.post "/" (Scenario.with_token Scenario.no_email_token)) Listing.start =
    (inr (Json (JObject [(js "error",
                          JString (js "Email not found in token payload"))])
               401%Z),
     (Listing.getPublicKeys (Listing.flaky 0) 1000 Listing.team Listing.start).2)
  ∧ ∀ env' net' req',
      (handler env' net' req').1 ≠
        Json (JObject [(js "error",
                        JString (js "Email not found in token payload"))])
             401%Z.
Proof.
  apply (missing_email_has_its_own_reply (Listing.flaky 0)
           (λ _ _, inr (JObject [(js "sub", JString (js "x"))])) Listing.env 1000
           (Scenario.post "/" (Scenario.with_token Scenario.no_email_token))
           Listing.start _ (js Scenario.no_email_token)
           (Listing.Parsed Listing.key_set) (JObject [(js "sub", JString (js "x"))])).
  - reflexivity.
  - discriminate.
  - by vm_compute.
  - reflexivity.
  - left. reflexivity.
Defined.

(** X13: once the verifier has accepted a token and returned the email
    that the token's payload carries, the listing goes on as [index.ts]
    does for that token: same reply, and the effects of [index.ts]'s run,
    on the network as it is after the keys were got, follow those of
    getting the keys. *)
Theorem verified_request_goes_on_as_index
    (net : list Listing.Effect → Network)
    (verifyWithJwks : jsstring → Listing.Keys → Try JsValue)
    (env : Listing.Bindings) (now : Z) (req : Request) (st st1 : Listing.State)
    (token : jsstring) (keys : Listing.Keys) (payload E : JsValue) :
  headers_get "cf-access-token" (headers req) = Some token →
  Listing.getPublicKeys net now (Listing.CF_ACCESS_TEAM_NAME env) st =
    (inr keys, st1) →
  verifyWithJwks token keys = inr payload →
  email_of payload = inr (Some E) →
  decode token = inr E →
  Listing.handler net verifyWithJwks env now req st =
    (inr (handler (Listing.gateway env) (net (Listing.trace st1)) req).1,
     Listing.emit
       (Listing.Did <$> (handler (Listing.gateway env) (net (Listing.trace st1)) req).2)
       st1).
Proof.
  intros Hh Hkeys Hverify Hemail Hdecode.
  rewrite (listing_handler_with_token _ _ _ _ _ _ token Hh
             (decode_some_nonempty _ _ Hdecode)).
  rewrite Hkeys, Hverify, Hemail, (decode_truthy _ _ Hdecode).
  rewrite (handler_decoded _ _ _ _ _ Hh Hdecode).
  unfold Listing.forward, Listing.fetch.
  destruct (net (Listing.trace st1) _); simpl; [done|].
  unfold Listing.emit. simpl. by rewrite <- (assoc_L (++)).
Qed.

Lemma verified_request_goes_on_as_index_witness :
  Listing.handler (Listing.flaky 1) Listing.accepts_alice Listing.env 1000
    (Scenario.post "/" (Scenario.with_token Scenario.alice_token)) Listing.start =
    (inr (Proxied Scenario.completion),
     Listing.emit
       [Listing.Did
          (Fetch (proxy_call Scenario.env
                    (Scenario.post "/" (Scenario.with_token Scenario.alice_token))
                    Scenario.alice))]
       (Listing.getPublicKeys (Listing.flaky 1) 1000 Listing.team Listing.start).2).
Proof.
  rewrite (verified_request_goes_on_as_index (Listing.flaky 1) Listing.accepts_alice
             Listing.env 1000
             (Scenario.post "/" (Scenario.with_token Scenario.alice_token))
             Listing.start
             (Listing.getPublicKeys (Listing.flaky 1) 1000 Listing.team Listing.start).2
             (js Scenario.alice_token) (Listing.Parsed Listing.key_set)
             (JObject [(js "email", Scenario.alice)]) Scenario.alice);
    by vm_compute.
Defined.

Lemma getPublicKeys_grows net now teamName st :
  ∃ more,
    Listing.trace (Listing.getPublicKeys net now teamName st).2 =
      Listing.trace st ++ more ∧
    (length (Listing.fetched more) ≤ 3)%nat ∧
    (∀ call, call ∈ Listing.fetched more →
             call = Listing.get (Listing.certsUri teamName)) ∧
    (Listing.awaited more = [] ∨ Listing.awaited more = [5000]
     ∨ Listing.awaited more = [5000; 10000]).
Proof.
  destruct (Listing.keys_usable st now) eqn:Husable.
  - exists []. rewrite getPublicKeys_hit by done. simpl. rewrite app_nil_r.
    split_and!; [done|lia| |by left]. by intros call ?%elem_of_nil.
  - destruct (getPublicKeys_miss net now teamName st Husable)
      as (more & Htrace & Hcalls & Hlen & Hawaited & _).
    exists (Listing.Did (Fetch (Listing.get (Listing.certsUri teamName))) :: more).
    split_and!; [done|simpl; lia| |done].
    intros call Hin.
    change (call ∈ Listing.get (Listing.certsUri teamName) :: Listing.fetched more)
      in Hin.
    apply elem_of_cons in Hin as [->|Hin]; [done|].
    rewrite Hcalls in Hin. by apply elem_of_replicate in Hin as [-> _].
Qed.

Lemma after_keys_grows (net : list Listing.Effect → Network)
    (verifyWithJwks : jsstring → Listing.Keys → Try JsValue)
    (env : Listing.Bindings) (req : Request) (token : jsstring)
    (keys : Listing.Keys) (st1 : Listing.State) :
  ∃ tail,
    Listing.trace
      (match verifyWithJwks token keys with
       | inl e => Listing.reject (Some e) st1
       | inr payload =>
           match email_of payload with
           | inl e => (inl e, st1)
           | inr None => (inr Listing.email_missing, st1)
           | inr (Some userEmail) =>
               if truthy userEmail then Listing.forward net env req userEmail st1
               else (inr Listing.email_missing, st1)
           end
       end).2 = Listing.trace st1 ++ tail ∧
    (length (Listing.fetched tail) ≤ 1)%nat ∧
    (∀ call, call ∈ Listing.fetched tail →
             fetch_url call = CF_AI_GATEWAY_URL (Listing.gateway env)) ∧
    Listing.awaited tail = [].
Proof.
  assert (∀ call : FetchCall, call ∈ [] → fetch_url call =
            CF_AI_GATEWAY_URL (Listing.gateway env)) as Hnone.
  { by intros call ?%elem_of_nil. }
  destruct (verifyWithJwks token keys) as [e|payload].
  { exists [Listing.Did (ConsoleError (js "JWT verification failed:") e)].
    split_and!; simpl; try done; lia. }
  destruct (email_of payload) as [e|[E|]].
  - exists []. simpl. rewrite app_nil_r. split_and!; simpl; try done; lia.
  - destruct (truthy E).
    + unfold Listing.forward, Listing.fetch.
      assert (∀ call, call ∈ [proxy_call (Listing.gateway env) req E] →
                fetch_url call = CF_AI_GATEWAY_URL (Listing.gateway env)) as Hone.
      { by intros call ->%list_elem_of_singleton. }
      destruct (or_throw _ _) as [error|proxyResponse]; simpl.
      * exists [Listing.Did (Fetch (proxy_call (Listing.gateway env) req E));
                Listing.Did (ConsoleError
                               (js "Failed to proxy request to AI Gateway:") error)].
        rewrite <- (assoc_L (++)). split_and!; simpl; try done; lia.
      * exists [Listing.Did (Fetch (proxy_call (Listing.gateway env) req E))].
        split_and!; simpl; try done; lia.
    + exists []. simpl. rewrite app_nil_r. split_and!; simpl; try done; lia.
  - exists []. simpl. rewrite app_nil_r. split_and!; simpl; try done; lia.
Qed.

(** X14: whatever the request, the network and the verifier, a run of the
    handler only adds to the trace, makes at most four calls of [fetch],
    each to the key-set endpoint of the configured team or to the
    configured upstream URL, and awaits no timer, or the one of 5000 ms,
    or that one and then the one of 10000 ms. *)
Theorem request_cost_is_bounded (net : list Listing.Effect → Network)
    (verifyWithJwks : jsstring → Listing.Keys → Try JsValue)
    (env : Listing.Bindings) (now : Z) (req : Request) (st : Listing.State) :
  ∃ more,
    Listing.trace (Listing.handler net verifyWithJwks env now req st).2 =
      Listing.trace st ++ more ∧
    (length (Listing.fetched more) ≤ 4)%nat ∧
    (∀ call, call ∈ Listing.fetched more →
       call = Listing.get (Listing.certsUri (Listing.CF_ACCESS_TEAM_NAME env))
       ∨ fetch_url call = CF_AI_GATEWAY_URL (Listing.gateway env)) ∧
    (Listing.awaited more = [] ∨ Listing.awaited more = [5000]
     ∨ Listing.awaited more = [5000; 10000]).
Proof.
  destruct (no_token (headers_get "cf-access-token" (headers req))) eqn:Hno.
  { exists []. rewrite listing_handler_without_token by done. simpl.
    rewrite app_nil_r. split_and!; [done|lia| |by left].
    by intros call ?%elem_of_nil. }
  destruct (headers_get "cf-access-token" (headers req)) as [token|] eqn:Hh;
    [|done].
  simpl in Hno. apply bool_decide_eq_false in Hno.
  rewrite (listing_handler_with_token _ _ _ _ _ _ token Hh Hno).
  destruct (getPublicKeys_grows net now (Listing.CF_ACCESS_TEAM_NAME env) st)
    as (more & Htrace & Hlen & Hcalls & Hawaited).
  destruct (Listing.getPublicKeys _ _ _ _) as [[e|keys] st1].
  - exists (more ++ [Listing.Did (ConsoleError (js "JWT verification failed:")
                                    (default (Error (js "Unknown error")) e))]).
    simpl in *. rewrite Htrace, fetched_app, awaited_app, !app_nil_r.
    split_and!; [by rewrite (assoc_L (++))|lia| |done].
    intros call Hin. left. by apply Hcalls.
  - destruct (after_keys_grows net verifyWithJwks env req token keys st1)
      as (tail & Htail & Hlen' & Hcalls' & Hawaited').
    exists (more ++ tail). simpl in Htrace.
    rewrite Htail, Htrace, fetched_app, awaited_app, Hawaited', app_nil_r, length_app.
    split_and!; [by rewrite (assoc_L (++))|lia| |done].
    intros call [Hin|Hin]%elem_of_app; [left; by apply Hcalls|right; by apply Hcalls'].
Qed.

(** ** Two verifications within the lifetime of the cached keys *)






